(** * nm_blocking_bounded_queue: the underlying ring queue and the barrier

    A shallow embedding of [nm_blocking_bounded_queue.c]:

    - the fixed-size circular queue [nm_queue] (create, enqueue, dequeue,
      is_empty, capacity, for_each), with [size_t] fields as integers that
      wrap modulo 2^64 and the backing array as a list indexed by position;
    - the semaphore-based mutex and barrier ([nm_barrier_wait]), as a
      per-thread step function over the shared barrier state, run either
      by one caller alone or under every interleaving of several callers.

    Undefined behaviour of the C program (an access outside the backing
    array, a remainder by zero) is an explicit outcome of the embedding,
    so that memory safety is part of what the theorems establish. *)

From Stdlib Require Import ZArith Lia List Bool.
From stdpp Require Import base list.

Local Open Scope Z_scope.

(* ------------------------------------------------------------------ *)
(** ** Machine integers, pointers and outcomes *)

(** [size_t] on the supported (LP64 Linux) target. *)
Definition SIZE_T_BITS : Z := 64.
Definition SIZE_T_MODULUS : Z := 2 ^ SIZE_T_BITS.

(** [#define MAX_SIZE_T ((size_t)-1)] *)
Definition MAX_SIZE_T : Z := SIZE_T_MODULUS - 1.

(** Arithmetic on [size_t] is reduced modulo 2^64. *)
Definition wrap_size_t (x : Z) : Z := x mod SIZE_T_MODULUS.

(** [unsigned int] is 32 bits wide. *)
Definition UINT_MODULUS : Z := 2 ^ 32.
Definition wrap_uint (x : Z) : Z := x mod UINT_MODULUS.

(** An item is an opaque [void*]; only its being [NULL] or not matters. *)
Definition ptr : Type := Z.
Definition NULL : ptr := 0.

(** Outcome of running a piece of the program. *)
Inductive exec (A : Type) : Type :=
| Ret (a : A)      (* ran to completion *)
| Fault            (* undefined behaviour: bad array index, [% 0] *)
| Timeout.         (* the loop budget of the embedding ran out *)
Arguments Ret {A} a.
Arguments Fault {A}.
Arguments Timeout {A}.

Definition bind {A B : Type} (m : exec A) (k : A -> exec B) : exec B :=
  match m with
  | Ret a => k a
  | Fault => Fault
  | Timeout => Timeout
  end.

Notation "'do' x <- m ; k" := (bind m (fun x => k))
  (at level 10, x name, m at level 100, k at level 200).

(** [a[i]] for reading. *)
Definition load (a : list ptr) (i : Z) : exec ptr :=
  if i <? 0 then Fault
  else match a !! Z.to_nat i with
       | Some p => Ret p
       | None => Fault
       end.

(** [a[i] = v]. *)
Definition store (a : list ptr) (i : Z) (v : ptr) : exec (list ptr) :=
  if i <? 0 then Fault
  else if (Z.to_nat i <? length a)%nat then Ret (<[Z.to_nat i := v]> a)
  else Fault.

(** [x % m] on unsigned operands. *)
Definition umod (x m : Z) : exec Z :=
  if m =? 0 then Fault else Ret (x mod m).

(* ------------------------------------------------------------------ *)
(** ** The underlying queue *)

Inductive nm_queue_status : Type :=
| NM_QUEUE_SUCCESS
| NM_QUEUE_UNINITIALIZED_ERROR
| NM_QUEUE_OVERFLOW_ERROR
| NM_QUEUE_UNDERFLOW_ERROR.

Definition nm_queue_status_eqb (a b : nm_queue_status) : bool :=
  match a, b with
  | NM_QUEUE_SUCCESS, NM_QUEUE_SUCCESS
  | NM_QUEUE_UNINITIALIZED_ERROR, NM_QUEUE_UNINITIALIZED_ERROR
  | NM_QUEUE_OVERFLOW_ERROR, NM_QUEUE_OVERFLOW_ERROR
  | NM_QUEUE_UNDERFLOW_ERROR, NM_QUEUE_UNDERFLOW_ERROR => true
  | _, _ => false
  end.

(** [struct nm_queue]. *)
Record nm_queue : Type := mk_nm_queue {
  items_ : list ptr;
  capacity_ : Z;
  head_ : Z;
  tail_ : Z;
  items_count_ : Z
}.

(** [nm_queue_create].  The two booleans say whether [malloc] and [calloc]
    succeed; [calloc] hands back [init_size_] slots, all [NULL].  The
    result is the new queue, or [None] for the [NULL] return. *)
Definition nm_queue_create (malloc_ok calloc_ok : bool) (init_size_ : Z)
  : option nm_queue :=
  if init_size_ =? 0 then None
  else if negb malloc_ok then None
  else if negb calloc_ok then None
  else Some {| items_ := replicate (Z.to_nat init_size_) NULL;
               capacity_ := init_size_;
               head_ := 0;
               tail_ := 0;
               items_count_ := 0 |}.

(** [nm_queue_enqueue].  The handle is [None] when the pointer is [NULL];
    the result carries the status and the queue the handle points to
    afterwards. *)
Definition nm_queue_enqueue (queue_ : option nm_queue) (item_ : ptr)
  : exec (nm_queue_status * option nm_queue) :=
  match queue_ with
  | None => Ret (NM_QUEUE_UNINITIALIZED_ERROR, None)
  | Some q =>
    if item_ =? NULL then Ret (NM_QUEUE_UNINITIALIZED_ERROR, Some q)
    else if capacity_ q =? items_count_ q then
      Ret (NM_QUEUE_OVERFLOW_ERROR, Some q)
    else
      do items' <- store (items_ q) (tail_ q) item_;
      let tail1 := wrap_size_t (tail_ q + 1) in
      do tail2 <- umod tail1 (capacity_ q);
      Ret (NM_QUEUE_SUCCESS,
           Some {| items_ := items';
                   capacity_ := capacity_ q;
                   head_ := head_ q;
                   tail_ := tail2;
                   items_count_ := wrap_size_t (items_count_ q + 1) |})
  end.

(** [nm_queue_dequeue].  [item_ptr_] is the caller's output cell: [None]
    for a [NULL] pointer, [Some v] for a cell that holds [v].  The result
    carries the status, the queue afterwards and the cell afterwards. *)
Definition nm_queue_dequeue (queue_ : option nm_queue) (item_ptr_ : option ptr)
  : exec (nm_queue_status * option nm_queue * option ptr) :=
  match queue_, item_ptr_ with
  | None, _ => Ret (NM_QUEUE_UNINITIALIZED_ERROR, None, item_ptr_)
  | Some q, None => Ret (NM_QUEUE_UNINITIALIZED_ERROR, Some q, None)
  | Some q, Some _ =>
    if items_count_ q =? 0 then
      Ret (NM_QUEUE_UNDERFLOW_ERROR, Some q, item_ptr_)
    else
      do x <- load (items_ q) (head_ q);
      do items' <- store (items_ q) (head_ q) NULL;
      let head1 := wrap_size_t (head_ q + 1) in
      do head2 <- umod head1 (capacity_ q);
      Ret (NM_QUEUE_SUCCESS,
           Some {| items_ := items';
                   capacity_ := capacity_ q;
                   head_ := head2;
                   tail_ := tail_ q;
                   items_count_ := wrap_size_t (items_count_ q - 1) |},
           Some x)
  end.

(** [nm_queue_is_empty]: an [int]. *)
Definition nm_queue_is_empty (queue_ : option nm_queue) : Z :=
  match queue_ with
  | None => -1
  | Some q => if items_count_ q =? 0 then 1 else 0
  end.

(** [nm_queue_capacity]. *)
Definition nm_queue_capacity (queue_ : option nm_queue) : Z :=
  match queue_ with
  | None => MAX_SIZE_T
  | Some q => capacity_ q
  end.

Section ForEach.

(** The state behind the callback's [void* context_]. *)
Context {C : Type}.

(** [action_callback]: reads the element, may update the context and
    answers 0 to stop or non-zero to go on.  This is a callback whose
    context does not lead back to the queue; [queue_visitor] below is
    one that can reach the queue. *)
Definition action_callback : Type := ptr -> C -> Z * C.

(** The [while(items_left-- > 0)] loop of [nm_queue_for_each]; it
    answers the final [items_left] and context. *)
Fixpoint for_each_loop (fuel : nat) (items : list ptr) (queue_capacity : Z)
    (callback_ : action_callback) (items_left item_idx : Z) (context_ : C)
  : exec (Z * C) :=
  match fuel with
  | O => Timeout
  | S fuel' =>
    let test := 0 <? items_left in
    let items_left := wrap_size_t (items_left - 1) in
    if test then
      do x <- load items item_idx;
      let item_idx := wrap_size_t (item_idx + 1) in
      let '(r, context_) := callback_ x context_ in
      if r =? 0 then Ret (items_left, context_)
      else
        do item_idx <- umod item_idx queue_capacity;
        for_each_loop fuel' items queue_capacity callback_
                      items_left item_idx context_
    else Ret (items_left, context_)
  end.

(** [nm_queue_for_each]: the returned [size_t] and the context
    afterwards.  A [NULL] callback is [None]. *)
Definition nm_queue_for_each (queue_ : option nm_queue)
    (callback_ : option action_callback) (context_ : C) : exec (Z * C) :=
  match queue_, callback_ with
  | None, _ | _, None => Ret (MAX_SIZE_T, context_)
  | Some q, Some cb =>
    let items_left := items_count_ q in
    let queue_capacity := capacity_ q in
    let item_idx := head_ q in
    do r <- for_each_loop (S (Z.to_nat (items_count_ q))) (items_ q)
                          queue_capacity cb items_left item_idx context_;
    let '(items_left, context_) := r in
    Ret (wrap_size_t (items_count_ q - items_left), context_)
  end.

End ForEach.
Arguments action_callback : clear implicits.

(* ------------------------------------------------------------------ *)
(** ** Sequences of calls on one queue handle *)

Section Calls.

Context {C : Type}.

(** One call of the queue's API with its arguments. *)
Inductive call : Type :=
| Enqueue (item_ : ptr)
| Dequeue (item_ptr_ : option ptr)
| IsEmpty
| Capacity
| ForEach (callback_ : option (action_callback C)) (context_ : C).

(** What the caller gets back. *)
Inductive answer : Type :=
| Enqueued (st : nm_queue_status)
| Dequeued (st : nm_queue_status) (cell : option ptr)
| Emptiness (r : Z)
| CapacityIs (r : Z)
| Visited (r : Z) (context_ : C).

Definition run_call (queue_ : option nm_queue) (c : call)
  : exec (answer * option nm_queue) :=
  match c with
  | Enqueue item_ =>
    do r <- nm_queue_enqueue queue_ item_;
    Ret (Enqueued (fst r), snd r)
  | Dequeue item_ptr_ =>
    do r <- nm_queue_dequeue queue_ item_ptr_;
    Ret (Dequeued (fst (fst r)) (snd r), snd (fst r))
  | IsEmpty => Ret (Emptiness (nm_queue_is_empty queue_), queue_)
  | Capacity => Ret (CapacityIs (nm_queue_capacity queue_), queue_)
  | ForEach callback_ context_ =>
    do r <- nm_queue_for_each queue_ callback_ context_;
    Ret (Visited (fst r) (snd r), queue_)
  end.

Fixpoint run_calls (queue_ : option nm_queue) (cs : list call)
  : exec (list answer * option nm_queue) :=
  match cs with
  | [] => Ret ([], queue_)
  | c :: cs' =>
    do r <- run_call queue_ c;
    do rs <- run_calls (snd r) cs';
    Ret (fst r :: fst rs, snd rs)
  end.

(** The call returned [NM_QUEUE_SUCCESS]. *)
Definition is_success (a : answer) : bool :=
  match a with
  | Enqueued st | Dequeued st _ => nm_queue_status_eqb st NM_QUEUE_SUCCESS
  | _ => false
  end.

(** The items handed to [nm_queue_enqueue], in call order. *)
Fixpoint enqueued_items (cs : list call) : list ptr :=
  match cs with
  | [] => []
  | Enqueue item_ :: cs' => item_ :: enqueued_items cs'
  | _ :: cs' => enqueued_items cs'
  end.

(** The items handed out by [nm_queue_dequeue] through the output
    cell, in call order. *)
Fixpoint dequeued_items (rs : list answer) : list ptr :=
  match rs with
  | [] => []
  | Dequeued NM_QUEUE_SUCCESS (Some x) :: rs' => x :: dequeued_items rs'
  | _ :: rs' => dequeued_items rs'
  end.

End Calls.
Arguments call : clear implicits.
Arguments answer : clear implicits.

(* ------------------------------------------------------------------ *)
(** ** Invariants and the abstract view of a queue *)

(** The state invariant on the counters. *)
Definition queue_inv (q : nm_queue) : Prop :=
  0 <= items_count_ q <= capacity_ q /\
  0 <= head_ q < capacity_ q /\
  0 <= tail_ q < capacity_ q.

(** Well-formed queue: the invariant, together with what ties the fields
    to each other and to the backing array. *)
Record queue_wf (q : nm_queue) : Prop := mk_queue_wf {
  wf_capacity : 0 < capacity_ q <= MAX_SIZE_T;
  wf_length : Z.of_nat (length (items_ q)) = capacity_ q;
  wf_head : 0 <= head_ q < capacity_ q;
  wf_count : 0 <= items_count_ q <= capacity_ q;
  wf_tail : tail_ q = (head_ q + items_count_ q) mod capacity_ q
}.

(** Array index of the [k]-th slot counted from [head_], wrapping. *)
Definition slot_index (q : nm_queue) (k : Z) : Z :=
  (head_ q + k) mod capacity_ q.

Definition slot (q : nm_queue) (k : Z) : ptr :=
  default NULL (items_ q !! Z.to_nat (slot_index q k)).

(** The buffered items, oldest first. *)
Definition contents (q : nm_queue) : list ptr :=
  map (fun k => slot q (Z.of_nat k)) (seq 0 (Z.to_nat (items_count_ q))).

(** Every slot that holds no buffered item is [NULL]. *)
Definition free_slots_null (q : nm_queue) : Prop :=
  forall k, items_count_ q <= k < capacity_ q -> slot q k = NULL.

(* ------------------------------------------------------------------ *)
(** ** Semaphore, mutex and barrier *)

Definition SEM_VALUE_MAX : Z := 2147483647.

(** A semaphore is its current value. *)
Definition sem_t : Type := Z.

(** [sem_init]: the [int] result and the semaphore afterwards. *)
Definition sem_init (sem_ : sem_t) (value_ : Z) : Z * sem_t :=
  if SEM_VALUE_MAX <? value_ then (-1, sem_) else (0, value_).

(** [sem_post]: refused once the value is at its maximum. *)
Definition sem_post (sem_ : sem_t) : Z * sem_t :=
  if sem_ <? SEM_VALUE_MAX then (0, sem_ + 1) else (-1, sem_).

(** [sem_wait]: a positive value is taken down by one and the call
    returns 0 at once.  At value zero the caller is blocked: it stays
    parked ([None]) unless a signal handler interrupts the call
    ([interrupted]), which then returns -1 (with [errno] set to [EINTR])
    and leaves the semaphore as it is. *)
Definition sem_wait (interrupted : bool) (sem_ : sem_t) : option (Z * sem_t) :=
  if 0 <? sem_ then Some (0, sem_ - 1)
  else if interrupted then Some (-1, sem_)
  else None.

(** [sem_destroy]: succeeds on an initialised semaphore, which must not
    be used afterwards. *)
Definition sem_destroy (sem_ : sem_t) : Z * sem_t := (0, sem_).

(** [struct nm_mutex_t]. *)
Record nm_mutex_t : Type := mk_nm_mutex { lock_ : sem_t }.

Definition nm_mutex_init (mtx_ : nm_mutex_t) : Z * nm_mutex_t :=
  let '(r, s) := sem_init (lock_ mtx_) 1 in (r, {| lock_ := s |}).

Definition nm_mutex_destroy (mtx_ : nm_mutex_t) : Z * nm_mutex_t :=
  let '(r, s) := sem_destroy (lock_ mtx_) in (r, {| lock_ := s |}).

(** [nm_mutex_lock]: the result of [sem_wait] is not looked at, so the
    caller goes on whether or not it has taken the lock. *)
Definition nm_mutex_lock (interrupted : bool) (mtx_ : nm_mutex_t)
  : option nm_mutex_t :=
  match sem_wait interrupted (lock_ mtx_) with
  | Some (_, s) => Some {| lock_ := s |}
  | None => None
  end.

Definition nm_mutex_unlock (mtx_ : nm_mutex_t) : nm_mutex_t :=
  {| lock_ := snd (sem_post (lock_ mtx_)) |}.

(** [struct nm_barrier_t]. *)
Record nm_barrier_t : Type := mk_nm_barrier {
  max_threads_count_ : Z;
  waiting_threads_count_ : Z;
  mtx_ : nm_mutex_t;
  turnstile_ : sem_t
}.

Definition set_waiting (b : nm_barrier_t) (w : Z) : nm_barrier_t :=
  {| max_threads_count_ := max_threads_count_ b;
     waiting_threads_count_ := w;
     mtx_ := mtx_ b;
     turnstile_ := turnstile_ b |}.

Definition set_mtx (b : nm_barrier_t) (m : nm_mutex_t) : nm_barrier_t :=
  {| max_threads_count_ := max_threads_count_ b;
     waiting_threads_count_ := waiting_threads_count_ b;
     mtx_ := m;
     turnstile_ := turnstile_ b |}.

Definition set_turnstile (b : nm_barrier_t) (s : sem_t) : nm_barrier_t :=
  {| max_threads_count_ := max_threads_count_ b;
     waiting_threads_count_ := waiting_threads_count_ b;
     mtx_ := mtx_ b;
     turnstile_ := s |}.

(** [nm_barrier_init] on the caller's (so far arbitrary) object. *)
Definition nm_barrier_init (barrier_ : nm_barrier_t) (threads_count_ : Z)
  : Z * nm_barrier_t :=
  let b := {| max_threads_count_ := threads_count_;
              waiting_threads_count_ := 0;
              mtx_ := mtx_ barrier_;
              turnstile_ := turnstile_ barrier_ |} in
  let '(r, m) := nm_mutex_init (mtx_ b) in
  if negb (r =? 0) then (-1, set_mtx b m)
  else
    let b := set_mtx b m in
    let '(r, s) := sem_init (turnstile_ b) 0 in
    if negb (r =? 0)
    then (-1, set_mtx (set_turnstile b s) (snd (nm_mutex_destroy (mtx_ b))))
    else (0, set_turnstile b s).

(** Where a thread stands inside [nm_barrier_wait]. *)
Inductive barrier_pc : Type :=
| AtLock                       (* before [nm_mutex_lock] *)
| AtArrive                     (* before [++waiting_threads_count_ == ...] *)
| AtPost (i max_threads : Z)   (* at the test of the [for] loop *)
| AtUnlock                     (* before [nm_mutex_unlock] *)
| AtTurnstile                  (* before [sem_wait(&turnstile_)] *)
| Returned.                    (* the call has returned *)

(** One step of a thread inside [nm_barrier_wait] on the shared barrier.
    [interrupted]: a signal handler interrupts the thread if this step
    is a blocked [sem_wait].  [None]: the thread cannot move (parked on a
    semaphore, or returned).  The last [sem_wait]'s result is not looked
    at either: the call returns after it in any case. *)
Definition nm_barrier_wait_step (interrupted : bool) (b : nm_barrier_t)
    (pc : barrier_pc) : option (nm_barrier_t * barrier_pc) :=
  match pc with
  | AtLock =>
    match nm_mutex_lock interrupted (mtx_ b) with
    | Some m => Some (set_mtx b m, AtArrive)
    | None => None
    end
  | AtArrive =>
    let b := set_waiting b (wrap_uint (waiting_threads_count_ b + 1)) in
    if waiting_threads_count_ b =? max_threads_count_ b
    then Some (b, AtPost 0 (max_threads_count_ b))
    else Some (b, AtUnlock)
  | AtPost i max_threads =>
    if i <? max_threads
    then Some (set_turnstile b (snd (sem_post (turnstile_ b))),
               AtPost (wrap_uint (i + 1)) max_threads)
    else Some (b, AtUnlock)
  | AtUnlock => Some (set_mtx b (nm_mutex_unlock (mtx_ b)), AtTurnstile)
  | AtTurnstile =>
    match sem_wait interrupted (turnstile_ b) with
    | Some (_, s) => Some (set_turnstile b s, Returned)
    | None => None
    end
  | Returned => None
  end.

(** *** One caller alone *)

Inductive wait_outcome : Type :=
| WaitReturns (b : nm_barrier_t)
| WaitBlocks (b : nm_barrier_t) (pc : barrier_pc)
| WaitTimeout.

Fixpoint nm_barrier_wait_from (fuel : nat) (interrupted : bool)
    (b : nm_barrier_t) (pc : barrier_pc) : wait_outcome :=
  match fuel with
  | O => WaitTimeout
  | S fuel' =>
    match pc with
    | Returned => WaitReturns b
    | _ =>
      match nm_barrier_wait_step interrupted b pc with
      | Some (b', pc') => nm_barrier_wait_from fuel' interrupted b' pc'
      | None => WaitBlocks b pc
      end
    end
  end.

(** [nm_barrier_wait] called while no other thread touches the barrier:
    it returns, or parks for good at [pc].  [interrupted]: signals
    interrupt the call wherever it blocks.  The budget covers the longest
    path: lock, arrive, the loop's tests, unlock, turnstile. *)
Definition nm_barrier_wait (interrupted : bool) (barrier_ : nm_barrier_t)
  : wait_outcome :=
  nm_barrier_wait_from (Z.to_nat (max_threads_count_ barrier_) + 6)
                       interrupted barrier_ AtLock.

(** *** Several callers, interleaved *)

(** The barrier and, per thread, where it stands in its call. *)
Record system : Type := mk_system {
  shared : nm_barrier_t;
  threads : list barrier_pc
}.

(** What the scheduler picks: a thread, and whether a signal interrupts
    it should its step be a blocked [sem_wait]. *)
Definition event : Type := (nat * bool)%type.

(** Thread [fst e] takes its next step, if it can. *)
Definition sys_step (s : system) (e : event) : option system :=
  match threads s !! fst e with
  | None => None
  | Some pc =>
    match nm_barrier_wait_step (snd e) (shared s) pc with
    | None => None
    | Some (b, pc') =>
      Some {| shared := b; threads := <[fst e := pc']> (threads s) |}
    end
  end.

(** Run the threads in the order the scheduler picks them. *)
Fixpoint run_schedule (s : system) (sched : list event) : option system :=
  match sched with
  | [] => Some s
  | e :: sched' =>
    match sys_step s e with
    | None => None
    | Some s' => run_schedule s' sched'
    end
  end.

(** No [sem_wait] of the run is interrupted. *)
Definition no_signal (sched : list event) : Prop :=
  Forall (fun e => snd e = false) sched.

(** The schedule that runs the threads [ts] with no signal. *)
Definition quietly (ts : list nat) : list event :=
  map (fun t => (t, false)) ts.

(** No thread can move, short of a signal. *)
Definition stuck (s : system) : Prop :=
  forall t, sys_step s (t, false) = None.

Definition stuckb (s : system) : bool :=
  forallb (fun t => match sys_step s (t, false) with
                    | None => true
                    | Some _ => false
                    end)
          (seq 0 (length (threads s))).

(** A barrier for [n] parties, just initialised. *)
Definition fresh_barrier (n : Z) : nm_barrier_t :=
  snd (nm_barrier_init {| max_threads_count_ := 0;
                          waiting_threads_count_ := 0;
                          mtx_ := {| lock_ := 0 |};
                          turnstile_ := 0 |} n).

(** [callers] threads, each about to call [nm_barrier_wait] once on a
    fresh barrier for [n] parties. *)
Definition barrier_system (n : Z) (callers : nat) : system :=
  {| shared := fresh_barrier n; threads := replicate callers AtLock |}.

(** Counting over the threads. *)
Fixpoint tally (f : barrier_pc -> Z) (l : list barrier_pc) : Z :=
  match l with
  | [] => 0
  | pc :: l' => f pc + tally f l'
  end.

Definition in_critical (pc : barrier_pc) : Z :=
  match pc with AtArrive | AtPost _ _ | AtUnlock => 1 | _ => 0 end.

Definition has_arrived (pc : barrier_pc) : Z :=
  match pc with AtLock | AtArrive => 0 | _ => 1 end.

Definition has_returned (pc : barrier_pc) : Z :=
  match pc with Returned => 1 | _ => 0 end.

Definition is_parked (pc : barrier_pc) : Z :=
  match pc with AtTurnstile => 1 | _ => 0 end.

(** Steps a thread at [pc] can still take. *)
Definition steps_left (n : Z) (pc : barrier_pc) : Z :=
  match pc with
  | AtLock => n + 5
  | AtArrive => n + 4
  | AtPost i m => Z.max 0 (m - i) + 3
  | AtUnlock => 2
  | AtTurnstile => 1
  | Returned => 0
  end.

(** The queue after a successful [nm_queue_enqueue] of [item_]. *)
Definition after_enqueue (q : nm_queue) (item_ : ptr) : nm_queue :=
  {| items_ := <[Z.to_nat (tail_ q) := item_]> (items_ q);
     capacity_ := capacity_ q;
     head_ := head_ q;
     tail_ := (tail_ q + 1) mod capacity_ q;
     items_count_ := items_count_ q + 1 |}.

(** The queue after a successful [nm_queue_dequeue]. *)
Definition after_dequeue (q : nm_queue) : nm_queue :=
  {| items_ := <[Z.to_nat (head_ q) := NULL]> (items_ q);
     capacity_ := capacity_ q;
     head_ := (head_ q + 1) mod capacity_ q;
     tail_ := tail_ q;
     items_count_ := items_count_ q - 1 |}.

(** What a pass over the items [l] amounts to: whether the callback asked
    to stop, how many times it was called, and the context afterwards. *)
Fixpoint visit {C : Type} (callback_ : action_callback C) (l : list ptr)
    (context_ : C) : bool * nat * C :=
  match l with
  | [] => (false, O, context_)
  | x :: l' =>
    let '(r, context_) := callback_ x context_ in
    if r =? 0 then (true, 1%nat, context_)
    else let '(stopped, n, context_) := visit callback_ l' context_ in
         (stopped, S n, context_)
  end.

(** The slots [k], [k+1], ..., [k+n-1] counted from the head. *)
Definition slots_from (q : nm_queue) (k : Z) (n : nat) : list ptr :=
  map (fun j => slot q (k + Z.of_nat j)) (seq 0 n).

(** What holds of the barrier and its callers in every state the system
    can be in, for a barrier of [n] parties: the lock is free exactly
    when no thread is between lock and unlock, the counter is the number
    of threads that went past the increment, and the posts on the
    turnstile not yet taken are those made minus the threads that
    returned. *)
Record barrier_inv (n : Z) (s : system) : Prop := mk_barrier_inv {
  inv_parties : 1 <= n <= SEM_VALUE_MAX;
  inv_callers : Z.of_nat (length (threads s)) < UINT_MODULUS;
  inv_max : max_threads_count_ (shared s) = n;
  inv_lock :
    0 <= lock_ (mtx_ (shared s)) /\
    lock_ (mtx_ (shared s)) + tally in_critical (threads s) = 1;
  inv_count :
    waiting_threads_count_ (shared s) = tally has_arrived (threads s);
  inv_turnstile : 0 <= turnstile_ (shared s);
  inv_posting :
    forall (t : nat) (i m : Z),
      threads s !! t = Some (AtPost i m) ->
      m = n /\ 0 <= i <= n /\
      waiting_threads_count_ (shared s) = n /\
      turnstile_ (shared s) + tally has_returned (threads s) = i;
  inv_released :
    (forall (t : nat) (i m : Z), threads s !! t <> Some (AtPost i m)) ->
    turnstile_ (shared s) + tally has_returned (threads s)
    = if n <=? waiting_threads_count_ (shared s) then n else 0
}.

(* ------------------------------------------------------------------ *)
(** ** A bounded list, to compare the ring with *)

(** Appending to a list that may hold [capacity] items. *)
Definition fifo_enqueue (capacity : Z) (l : list ptr) (item_ : ptr)
  : nm_queue_status * list ptr :=
  if item_ =? NULL then (NM_QUEUE_UNINITIALIZED_ERROR, l)
  else if Z.of_nat (length l) =? capacity then (NM_QUEUE_OVERFLOW_ERROR, l)
  else (NM_QUEUE_SUCCESS, l ++ [item_]).

(** Taking the first item of a list into the caller's cell. *)
Definition fifo_dequeue (l : list ptr) (item_ptr_ : option ptr)
  : nm_queue_status * list ptr * option ptr :=
  match item_ptr_, l with
  | None, _ => (NM_QUEUE_UNINITIALIZED_ERROR, l, None)
  | Some old, [] => (NM_QUEUE_UNDERFLOW_ERROR, [], Some old)
  | Some _, x :: l' => (NM_QUEUE_SUCCESS, l', Some x)
  end.

(** The answer of each call of the API on the bounded list, and the list
    afterwards.  A visit answers the number of items visited. *)
Definition fifo_call {C : Type} (capacity : Z) (l : list ptr) (c : call C)
  : answer C * list ptr :=
  match c with
  | Enqueue item_ =>
    let '(st, l') := fifo_enqueue capacity l item_ in (Enqueued st, l')
  | Dequeue item_ptr_ =>
    let '(st, l', cell) := fifo_dequeue l item_ptr_ in (Dequeued st cell, l')
  | IsEmpty => (Emptiness (match l with [] => 1 | _ => 0 end), l)
  | Capacity => (CapacityIs capacity, l)
  | ForEach None context_ => (Visited MAX_SIZE_T context_, l)
  | ForEach (Some callback_) context_ =>
    let '(_, m, context_) := visit callback_ l context_ in
    (Visited (Z.of_nat m) context_, l)
  end.

(** The calls of [nm_queue_for_each]. *)
Definition is_for_each {C : Type} (c : call C) : bool :=
  match c with
  | ForEach _ _ => true
  | _ => false
  end.

Fixpoint fifo_run {C : Type} (capacity : Z) (l : list ptr) (cs : list (call C))
  : list (answer C) * list ptr :=
  match cs with
  | [] => ([], l)
  | c :: cs' =>
    let '(a, l1) := fifo_call capacity l c in
    let '(rs, l') := fifo_run capacity l1 cs' in
    (a :: rs, l')
  end.

(* ------------------------------------------------------------------ *)
(** ** A visitor that reaches the queue *)

Section ForEachShared.

Context {C : Type}.

(** An [action_callback] whose [context_] leads back to the queue: next
    to the element and its own state it is given the queue, which it may
    change, and it hands back its answer, the queue as it leaves it and
    its state. *)
Definition queue_visitor : Type := ptr -> nm_queue -> C -> Z * nm_queue * C.

(** The loop of [nm_queue_for_each] with such a callback: [items_left],
    [item_idx] and [queue_capacity] are the function's locals, while
    [queue_->items_[...]] is read from the queue as it is at that
    moment. *)
Fixpoint for_each_loop_shared (fuel : nat) (queue_capacity : Z)
    (callback_ : queue_visitor) (items_left item_idx : Z) (q : nm_queue)
    (context_ : C) : exec (Z * nm_queue * C) :=
  match fuel with
  | O => Timeout
  | S fuel' =>
    let test := 0 <? items_left in
    let items_left := wrap_size_t (items_left - 1) in
    if test then
      do x <- load (items_ q) item_idx;
      let item_idx := wrap_size_t (item_idx + 1) in
      let '(r, q, context_) := callback_ x q context_ in
      if r =? 0 then Ret (items_left, q, context_)
      else
        do item_idx <- umod item_idx queue_capacity;
        for_each_loop_shared fuel' queue_capacity callback_
                             items_left item_idx q context_
    else Ret (items_left, q, context_)
  end.

(** [nm_queue_for_each] with such a callback: the returned [size_t], the
    queue and the context afterwards.  The result is computed from
    [queue_->items_count_] as it is after the loop. *)
Definition nm_queue_for_each_shared (queue_ : option nm_queue)
    (callback_ : option queue_visitor) (context_ : C)
  : exec (Z * option nm_queue * C) :=
  match queue_, callback_ with
  | None, _ | _, None => Ret (MAX_SIZE_T, queue_, context_)
  | Some q, Some cb =>
    let items_left := items_count_ q in
    let queue_capacity := capacity_ q in
    let item_idx := head_ q in
    do r <- for_each_loop_shared (S (Z.to_nat (items_count_ q)))
                                 queue_capacity cb items_left item_idx
                                 q context_;
    let '(items_left, q', context_) := r in
    Ret (wrap_size_t (items_count_ q' - items_left), Some q', context_)
  end.

(** The visitor hands the queue back as it got it. *)
Definition leaves_queue_alone (v : queue_visitor) : Prop :=
  forall (x : ptr) (q : nm_queue) (c : C), snd (fst (v x q c)) = q.

(** What the visitor answers and does to its state when the queue
    is [q]. *)
Definition seen_from (v : queue_visitor) (q : nm_queue) : action_callback C :=
  fun x c => (fst (fst (v x q c)), snd (v x q c)).

(** The context after the callback has been shown the items [l] in
    turn. *)
Definition context_after (callback_ : action_callback C) (l : list ptr)
    (context_ : C) : C :=
  fold_left (fun c x => snd (callback_ x c)) l context_.

(** Shown the items [l] in turn, each with the context the item before
    left, the callback answers non-zero every time. *)
Fixpoint goes_on (callback_ : action_callback C) (l : list ptr)
    (context_ : C) : bool :=
  match l with
  | [] => true
  | x :: l' =>
    negb (fst (callback_ x context_) =? 0)
    && goes_on callback_ l' (snd (callback_ x context_))
  end.

End ForEachShared.
Arguments queue_visitor : clear implicits.

(* ------------------------------------------------------------------ *)
(** ** Tearing a queue down *)

Section Destroy.

(** What the element destructor acts on (the caller's heap). *)
Context {W : Type}.

(** [destroy_item_callback]: takes the element, returns nothing. *)
Definition destroy_item_callback : Type := ptr -> W -> W.

(** The [while(items_left-- > 0)] loop of [nm_queue_destroy]. *)
Fixpoint destroy_loop (fuel : nat) (items : list ptr) (queue_capacity : Z)
    (callback_ : destroy_item_callback) (items_left item_idx : Z) (w : W)
  : exec W :=
  match fuel with
  | O => Timeout
  | S fuel' =>
    let test := 0 <? items_left in
    let items_left := wrap_size_t (items_left - 1) in
    if test then
      do x <- load items item_idx;
      let item_idx := wrap_size_t (item_idx + 1) in
      let w := callback_ x w in
      do item_idx <- umod item_idx queue_capacity;
      destroy_loop fuel' items queue_capacity callback_ items_left item_idx w
    else Ret w
  end.

(** [nm_queue_destroy].  [queue_] points to the caller's handle: [None]
    for a [NULL] pointer, [Some None] for a handle that is [NULL],
    [Some (Some q)] for a handle to the queue [q].  The result is the
    caller's handle and heap afterwards; the queue and its array are
    freed exactly when the handle is set to [NULL]. *)
Definition nm_queue_destroy (queue_ : option (option nm_queue))
    (callback_ : option destroy_item_callback) (w : W)
  : exec (option (option nm_queue) * W) :=
  match queue_ with
  | Some (Some q) =>
    do w <- match callback_ with
            | Some cb =>
              let items_left := items_count_ q in
              let queue_capacity := capacity_ q in
              let item_idx := head_ q in
              destroy_loop (S (Z.to_nat (items_count_ q))) (items_ q)
                           queue_capacity cb items_left item_idx w
            | None => Ret w
            end;
    Ret (Some None, w)
  | _ => Ret (queue_, w)
  end.

End Destroy.
Arguments destroy_item_callback : clear implicits.

(* ------------------------------------------------------------------ *)
(** ** Tearing a barrier down *)

Section BarrierDestroy.

(** The platform's [sem_destroy]: its [int] result and what it leaves of
    the semaphore.  ([sem_destroy] above is the one that cannot fail.) *)
Variable platform_sem_destroy : sem_t -> Z * sem_t.

(** [nm_mutex_destroy] over that [sem_destroy]. *)
Definition nm_mutex_destroy_with (mtx_ : nm_mutex_t) : Z * nm_mutex_t :=
  let '(r, s) := platform_sem_destroy (lock_ mtx_) in (r, {| lock_ := s |}).

(** [nm_barrier_destroy]:
    [return nm_mutex_destroy(&mtx_) && sem_destroy(&turnstile_);]
    where [&&] evaluates its right operand only when the left one is
    non-zero, and yields 0 or 1. *)
Definition nm_barrier_destroy (barrier_ : nm_barrier_t) : Z * nm_barrier_t :=
  let '(r1, m) := nm_mutex_destroy_with (mtx_ barrier_) in
  let b := set_mtx barrier_ m in
  if r1 =? 0 then (0, b)
  else
    let '(r2, s) := platform_sem_destroy (turnstile_ b) in
    (if r2 =? 0 then 0 else 1, set_turnstile b s).

End BarrierDestroy.

(* ------------------------------------------------------------------ *)
(** ** The semaphore functions for Windows *)

(** The [sem_*] functions the file defines itself where the platform has
    none, on top of a kernel semaphore object.  [errno] is passed in and
    handed back; a call that would park the caller answers [None]. *)
Module Win32.

Definition EINVAL : Z := 22.
Definition ENOMEM : Z := 12.
Definition ENOSPC : Z := 28.

Definition WAIT_OBJECT_0 : Z := 0.
Definition WAIT_TIMEOUT : Z := 258.

(** [errno_set]: the [int] result and [errno] afterwards. *)
Definition errno_set (errno result : Z) : Z * Z :=
  if negb (result =? 0) then (-1, result) else (0, errno).

(** The kernel's semaphore object behind a [HANDLE]: its count and the
    maximum it was created with. *)
Record kernel_semaphore : Type := mk_kernel_semaphore {
  count : Z;
  maximum : Z
}.

(** [CreateSemaphore(NULL, initial, maximum, NULL)]: no object ([NULL])
    when the counts are out of range or the system has none to give. *)
Definition CreateSemaphore (resources_ok : bool)
    (lInitialCount lMaximumCount : Z) : option kernel_semaphore :=
  if resources_ok && (0 <=? lInitialCount)
     && (lInitialCount <=? lMaximumCount) && (0 <? lMaximumCount)
  then Some {| count := lInitialCount; maximum := lMaximumCount |}
  else None.

(** The two time-outs the file passes to [WaitForSingleObject]. *)
Inductive wait_time : Type := INFINITE | NoWait.

(** [WaitForSingleObject]: takes the count down by one when it is
    positive; otherwise reports a time-out at once ([NoWait]) or keeps
    the caller waiting ([INFINITE], [None]). *)
Definition WaitForSingleObject (h : kernel_semaphore) (ms : wait_time)
  : option (Z * kernel_semaphore) :=
  if 0 <? count h
  then Some (WAIT_OBJECT_0, {| count := count h - 1; maximum := maximum h |})
  else match ms with
       | INFINITE => None
       | NoWait => Some (WAIT_TIMEOUT, h)
       end.

(** [ReleaseSemaphore(h, n, &previous)]: the [BOOL] result, the previous
    count and the object afterwards; refused, with nothing changed, when
    the count would pass the maximum. *)
Definition ReleaseSemaphore (h : kernel_semaphore) (lReleaseCount : Z)
  : Z * Z * kernel_semaphore :=
  if (0 <? lReleaseCount) && (count h + lReleaseCount <=? maximum h)
  then (1, count h,
        {| count := count h + lReleaseCount; maximum := maximum h |})
  else (0, 0, h).

(** [CloseHandle] on an open handle. *)
Definition CloseHandle (h : kernel_semaphore) : Z := 1.

(** [struct arch_sem_t]. *)
Record arch_sem_t : Type := mk_arch_sem { handle : kernel_semaphore }.

(** [sem_t] is [void*]: [None] for [NULL], else the [arch_sem_t] behind
    it.  The functions take a [sem_t*]: [None] for a [NULL] pointer. *)
Definition sem_t : Type := option arch_sem_t.

(** [sem_init]: the [int] result, [errno] and [*sem_] afterwards.  The
    booleans say whether [calloc] succeeds and whether the system can
    give a semaphore object. *)
Definition sem_init (calloc_ok resources_ok : bool) (errno : Z)
    (sem_ : option sem_t) (pshared_ : Z) (value_ : Z)
  : Z * Z * option sem_t :=
  match sem_ with
  | None => (errno_set errno EINVAL, None)
  | Some old =>
    if SEM_VALUE_MAX <? value_ then (errno_set errno EINVAL, Some old)
    else if negb calloc_ok then (errno_set errno ENOMEM, Some old)
    else match CreateSemaphore resources_ok value_ SEM_VALUE_MAX with
         | None => (errno_set errno ENOSPC, Some old)
         | Some h => (0, errno, Some (Some {| handle := h |}))
         end
  end.

(** [sem_wait]. *)
Definition sem_wait (errno : Z) (sem_ : option sem_t)
  : option (Z * Z * option sem_t) :=
  match sem_ with
  | None => Some (errno_set errno EINVAL, None)
  | Some None => Some (errno_set errno EINVAL, Some None)
  | Some (Some pv) =>
    match WaitForSingleObject (handle pv) INFINITE with
    | None => None
    | Some (r, h) =>
      if negb (r =? WAIT_OBJECT_0)
      then Some (errno_set errno EINVAL, Some (Some {| handle := h |}))
      else Some (0, errno, Some (Some {| handle := h |}))
    end
  end.

(** [sem_post]. *)
Definition sem_post (errno : Z) (sem_ : option sem_t)
  : Z * Z * option sem_t :=
  match sem_ with
  | None => (errno_set errno EINVAL, None)
  | Some None => (errno_set errno EINVAL, Some None)
  | Some (Some pv) =>
    let '(ok, _, h) := ReleaseSemaphore (handle pv) 1 in
    if ok =? 0
    then (errno_set errno EINVAL, Some (Some {| handle := h |}))
    else (0, errno, Some (Some {| handle := h |}))
  end.

(** [sem_getvalue]: the result, [errno], [*sem_] and [*value_ptr_]
    afterwards. *)
Definition sem_getvalue (errno : Z) (sem_ : option sem_t) (value : Z)
  : option (Z * Z * option sem_t * Z) :=
  match sem_ with
  | None => Some (errno_set errno EINVAL, None, value)
  | Some None => Some (errno_set errno EINVAL, Some None, value)
  | Some (Some pv) =>
    match WaitForSingleObject (handle pv) NoWait with
    | None => None
    | Some (r, h) =>
      if r =? WAIT_OBJECT_0 then
        let '(ok, previous, h) := ReleaseSemaphore h 1 in
        if ok =? 0
        then Some (errno_set errno EINVAL, Some (Some {| handle := h |}),
                   value)
        else Some (0, errno, Some (Some {| handle := h |}), previous + 1)
      else if r =? WAIT_TIMEOUT then
        Some (0, errno, Some (Some {| handle := h |}), 0)
      else Some (errno_set errno EINVAL, Some (Some {| handle := h |}),
                 value)
    end
  end.

(** [sem_destroy]: closes the handle, frees the [arch_sem_t] and sets
    [*sem_] to [NULL]. *)
Definition sem_destroy (errno : Z) (sem_ : option sem_t)
  : Z * Z * option sem_t :=
  match sem_ with
  | None => (errno_set errno EINVAL, None)
  | Some None => (errno_set errno EINVAL, Some None)
  | Some (Some pv) =>
    if CloseHandle (handle pv) =? 0
    then (errno_set errno EINVAL, Some (Some pv))
    else (0, errno, Some None)
  end.

(** A semaphore whose count is within its bounds. *)
Definition in_bounds (pv : arch_sem_t) : Prop :=
  0 <= count (handle pv) <= maximum (handle pv).

End Win32.

(* ------------------------------------------------------------------ *)
(** ** Sample states *)

(** A queue of capacity 1 that is full: [nm_queue_create(1)] followed by
    the enqueue of item 5. *)
Definition sample_full_queue : nm_queue :=
  {| items_ := [5]; capacity_ := 1; head_ := 0; tail_ := 0;
     items_count_ := 1 |}.

(** A queue of capacity 2 holding one item: [nm_queue_create(2)] followed
    by the enqueue of item 7. *)
Definition sample_queue : nm_queue :=
  {| items_ := [7; NULL]; capacity_ := 2; head_ := 0; tail_ := 1;
     items_count_ := 1 |}.

(** A visitor that records what it is shown and never asks to stop. *)
Definition record_all : action_callback (list ptr) :=
  fun element_ seen => (1, seen ++ [element_]).

(** A visitor that records what it is shown and stops at once. *)
Definition record_and_stop : action_callback (list ptr) :=
  fun element_ seen => (0, seen ++ [element_]).

(** A full queue of capacity 2 holding 7 then 8. *)
Definition sample_two_items : nm_queue :=
  {| items_ := [7; 8]; capacity_ := 2; head_ := 0; tail_ := 0;
     items_count_ := 2 |}.

(** A full queue of capacity 3 holding 7, 8 and 9. *)
Definition sample_three_items : nm_queue :=
  {| items_ := [7; 8; 9]; capacity_ := 3; head_ := 0; tail_ := 0;
     items_count_ := 3 |}.

(** A visitor that keeps its hands off the queue, records what it is
    shown and stops at the second item it sees. *)
Definition stop_at_second : queue_visitor (list ptr) :=
  fun element_ q seen =>
    (match seen with [] => 1 | _ => 0 end, q, seen ++ [element_]).

(** A visitor that keeps its hands off the queue, records what it is
    shown and never asks to stop. *)
Definition watch_all : queue_visitor (list ptr) :=
  fun element_ q seen => (1, q, seen ++ [element_]).

(** A visitor that takes an item off the queue each time it is called,
    records what it is shown and never asks to stop. *)
Definition dequeue_while_visiting : queue_visitor (list ptr) :=
  fun element_ q seen =>
    match nm_queue_dequeue (Some q) (Some NULL) with
    | Ret (_, Some q', _) => (1, q', seen ++ [element_])
    | _ => (1, q, seen ++ [element_])
    end.

(** Calls other than visits, some of which fail. *)
Definition sample_plain_calls : list (call unit) :=
  [Enqueue 7; Enqueue NULL; Enqueue 8; Enqueue 9; IsEmpty; Dequeue None;
   Dequeue (Some 5); Capacity; Dequeue (Some 5); Dequeue (Some 5); IsEmpty].

(** An element destructor that records what it is given. *)
Definition record_destroyed : destroy_item_callback (list ptr) :=
  fun element_ freed => freed ++ [element_].

(** Some calls that all succeed on a queue of capacity 2. *)
Definition sample_calls : list (call unit) :=
  [Enqueue 7; Enqueue 8; Dequeue (Some NULL); Enqueue 9;
   Dequeue (Some NULL)].

(** Calls of every kind, some of which fail. *)
Definition sample_mixed_calls : list (call (list ptr)) :=
  [Enqueue 7; ForEach (Some record_all) []; Enqueue NULL; Enqueue 8;
   Enqueue 9; IsEmpty; Dequeue None; Dequeue (Some NULL); Capacity;
   ForEach None []; ForEach (Some record_and_stop) [];
   Dequeue (Some NULL); Dequeue (Some NULL)].

(* ================================================================== *)
(** * Proofs *)

(** ** Arithmetic *)

Lemma wrap_size_t_small (x : Z) : 0 <= x <= MAX_SIZE_T -> wrap_size_t x = x.
Proof.
  unfold wrap_size_t, MAX_SIZE_T. intros H. apply Z.mod_small. lia.
Qed.

Lemma wrap_uint_small (x : Z) : 0 <= x < UINT_MODULUS -> wrap_uint x = x.
Proof. unfold wrap_uint. intros H. now apply Z.mod_small. Qed.

(** Below twice the modulus, a remainder is one conditional subtraction. *)
Lemma mod_once (x c : Z) :
  0 <= x < 2 * c -> x mod c = if x <? c then x else x - c.
Proof.
  intros H. destruct (Z.ltb_spec x c).
  - apply Z.mod_small. lia.
  - symmetry. apply (Z.mod_unique x c 1 (x - c)); lia.
Qed.

Lemma slot_index_range (q : nm_queue) (k : Z) :
  0 < capacity_ q -> 0 <= slot_index q k < capacity_ q.
Proof. intros H. unfold slot_index. now apply Z.mod_pos_bound. Qed.

Lemma slot_index_inj (q : nm_queue) (j k : Z) :
  0 <= head_ q < capacity_ q ->
  0 <= j < capacity_ q -> 0 <= k < capacity_ q ->
  slot_index q j = slot_index q k -> j = k.
Proof.
  intros Hh Hj Hk. unfold slot_index.
  rewrite !mod_once by lia.
  destruct (Z.ltb_spec (head_ q + j) (capacity_ q)),
           (Z.ltb_spec (head_ q + k) (capacity_ q)); lia.
Qed.

(** ** The backing array *)

Lemma load_in_range (a : list ptr) (i : Z) :
  0 <= i < Z.of_nat (length a) ->
  load a i = Ret (default NULL (a !! Z.to_nat i)).
Proof.
  intros H. unfold load.
  destruct (Z.ltb_spec i 0); [lia|].
  destruct (a !! Z.to_nat i) eqn:E; [reflexivity|].
  apply lookup_ge_None in E. lia.
Qed.

Lemma store_in_range (a : list ptr) (i : Z) (v : ptr) :
  0 <= i < Z.of_nat (length a) ->
  store a i v = Ret (<[Z.to_nat i := v]> a).
Proof.
  intros H. unfold store.
  destruct (Z.ltb_spec i 0); [lia|].
  destruct (Nat.ltb_spec (Z.to_nat i) (length a)); [reflexivity|lia].
Qed.

Lemma umod_nonzero (x m : Z) : m <> 0 -> umod x m = Ret (x mod m).
Proof.
  intros H. unfold umod. destruct (Z.eqb_spec m 0); [contradiction|reflexivity].
Qed.

(** ** Enqueue and dequeue on a well-formed queue *)

Lemma wf_tail_range (q : nm_queue) :
  queue_wf q -> 0 <= tail_ q < capacity_ q.
Proof.
  intros W. rewrite (wf_tail q W). apply Z.mod_pos_bound.
  pose proof (wf_capacity q W). lia.
Qed.

Lemma queue_wf_inv (q : nm_queue) : queue_wf q -> queue_inv q.
Proof.
  intros W. unfold queue_inv.
  pose proof (wf_tail_range q W). pose proof (wf_head q W).
  pose proof (wf_count q W). lia.
Qed.

Lemma enqueue_success (q : nm_queue) (item_ : ptr) :
  queue_wf q -> item_ <> NULL -> items_count_ q <> capacity_ q ->
  nm_queue_enqueue (Some q) item_
  = Ret (NM_QUEUE_SUCCESS, Some (after_enqueue q item_)).
Proof.
  intros W Hi Hc.
  pose proof (wf_capacity q W) as Hcap. pose proof (wf_count q W) as Hn.
  pose proof (wf_tail_range q W) as Ht. pose proof (wf_length q W) as Hl.
  unfold nm_queue_enqueue.
  destruct (Z.eqb_spec item_ NULL); [contradiction|].
  destruct (Z.eqb_spec (capacity_ q) (items_count_ q)); [congruence|].
  rewrite store_in_range by lia. cbn [bind].
  rewrite umod_nonzero by lia. cbn [bind].
  rewrite !wrap_size_t_small by lia. reflexivity.
Qed.

Lemma dequeue_success (q : nm_queue) (old : ptr) :
  queue_wf q -> items_count_ q <> 0 ->
  nm_queue_dequeue (Some q) (Some old)
  = Ret (NM_QUEUE_SUCCESS, Some (after_dequeue q), Some (slot q 0)).
Proof.
  intros W Hc.
  pose proof (wf_capacity q W) as Hcap. pose proof (wf_count q W) as Hn.
  pose proof (wf_head q W) as Hh. pose proof (wf_length q W) as Hl.
  unfold nm_queue_dequeue.
  destruct (Z.eqb_spec (items_count_ q) 0); [contradiction|].
  rewrite load_in_range by lia. cbn [bind].
  rewrite store_in_range by lia. cbn [bind].
  rewrite umod_nonzero by lia. cbn [bind].
  rewrite !wrap_size_t_small by lia.
  unfold slot, slot_index. rewrite Z.add_0_r, (Z.mod_small (head_ q)) by lia.
  reflexivity.
Qed.

Lemma create_some (malloc_ok calloc_ok : bool) (n : Z) (q : nm_queue) :
  nm_queue_create malloc_ok calloc_ok n = Some q ->
  n <> 0 /\ q = {| items_ := replicate (Z.to_nat n) NULL; capacity_ := n;
                  head_ := 0; tail_ := 0; items_count_ := 0 |}.
Proof.
  unfold nm_queue_create.
  destruct (Z.eqb_spec n 0); [discriminate|].
  destruct malloc_ok, calloc_ok; cbn; try discriminate.
  intros [= <-]. now split.
Qed.

Lemma create_wf (malloc_ok calloc_ok : bool) (n : Z) (q : nm_queue) :
  0 <= n <= MAX_SIZE_T ->
  nm_queue_create malloc_ok calloc_ok n = Some q ->
  queue_wf q /\ capacity_ q = n /\ items_count_ q = 0.
Proof.
  intros Hn Hc. apply create_some in Hc as [Hz ->]. cbn.
  split; [|split; reflexivity].
  constructor; cbn; try lia.
  - rewrite length_replicate. lia.
  - rewrite Z.mod_small; lia.
Qed.

Lemma after_enqueue_wf (q : nm_queue) (item_ : ptr) :
  queue_wf q -> items_count_ q <> capacity_ q ->
  queue_wf (after_enqueue q item_).
Proof.
  intros W Hc.
  pose proof (wf_capacity q W). pose proof (wf_count q W).
  constructor; cbn; try lia.
  - rewrite length_insert. apply (wf_length q W).
  - apply (wf_head q W).
  - rewrite (wf_tail q W), Z.add_mod_idemp_l by lia. f_equal. lia.
Qed.

Lemma after_dequeue_wf (q : nm_queue) :
  queue_wf q -> items_count_ q <> 0 -> queue_wf (after_dequeue q).
Proof.
  intros W Hc.
  pose proof (wf_capacity q W). pose proof (wf_count q W).
  constructor; cbn; try lia.
  - rewrite length_insert. apply (wf_length q W).
  - apply Z.mod_pos_bound. lia.
  - rewrite (wf_tail q W), Z.add_mod_idemp_l by lia. f_equal. lia.
Qed.

(** ** Slots seen from the head *)

Lemma slot_after_enqueue (q : nm_queue) (item_ : ptr) (k : Z) :
  queue_wf q -> items_count_ q <> capacity_ q -> 0 <= k < capacity_ q ->
  slot (after_enqueue q item_) k
  = if k =? items_count_ q then item_ else slot q k.
Proof.
  intros W Hc Hk.
  pose proof (wf_capacity q W). pose proof (wf_count q W).
  pose proof (wf_head q W). pose proof (wf_length q W).
  pose proof (slot_index_range q k ltac:(lia)) as Hr.
  unfold slot. change (slot_index (after_enqueue q item_) k) with (slot_index q k).
  cbn [after_enqueue items_]. rewrite (wf_tail q W).
  fold (slot_index q (items_count_ q)).
  destruct (Z.eqb_spec k (items_count_ q)) as [->|Hne].
  - rewrite list_lookup_insert_eq by lia. reflexivity.
  - rewrite list_lookup_insert_ne; [reflexivity|].
    intros E. apply Hne. symmetry.
    apply (slot_index_inj q); try lia.
    pose proof (slot_index_range q (items_count_ q) ltac:(lia)). lia.
Qed.

Lemma slot_index_after_dequeue (q : nm_queue) (k : Z) :
  0 < capacity_ q ->
  slot_index (after_dequeue q) k = slot_index q (k + 1).
Proof.
  intros H. unfold slot_index. cbn [after_dequeue head_ capacity_].
  rewrite Z.add_mod_idemp_l by lia. f_equal. lia.
Qed.

Lemma slot_after_dequeue (q : nm_queue) (k : Z) :
  queue_wf q -> 0 <= k < capacity_ q ->
  slot (after_dequeue q) k
  = if k =? capacity_ q - 1 then NULL else slot q (k + 1).
Proof.
  intros W Hk.
  pose proof (wf_capacity q W). pose proof (wf_head q W).
  pose proof (wf_length q W).
  pose proof (slot_index_range q (k + 1) ltac:(lia)) as Hr.
  unfold slot. rewrite slot_index_after_dequeue by lia.
  cbn [after_dequeue items_].
  assert (Hh : head_ q = slot_index q 0).
  { unfold slot_index. rewrite Z.add_0_r, Z.mod_small; lia. }
  destruct (Z.eqb_spec k (capacity_ q - 1)) as [->|Hne].
  - replace (slot_index q (capacity_ q - 1 + 1)) with (head_ q).
    + rewrite list_lookup_insert_eq by lia. reflexivity.
    + unfold slot_index.
      replace (head_ q + (capacity_ q - 1 + 1))
        with (head_ q + 1 * capacity_ q) by lia.
      rewrite Z.mod_add, Z.mod_small; lia.
  - rewrite list_lookup_insert_ne; [reflexivity|].
    rewrite Hh at 1. intros E.
    assert (0 = k + 1); [|lia].
    apply (slot_index_inj q); lia.
Qed.

(** ** The buffered items *)

Lemma contents_length (q : nm_queue) :
  length (contents q) = Z.to_nat (items_count_ q).
Proof. unfold contents. now rewrite length_map, length_seq. Qed.

Lemma contents_create (malloc_ok calloc_ok : bool) (n : Z) (q : nm_queue) :
  nm_queue_create malloc_ok calloc_ok n = Some q -> contents q = [].
Proof. intros Hc. apply create_some in Hc as [_ ->]. reflexivity. Qed.

Lemma contents_after_enqueue (q : nm_queue) (item_ : ptr) :
  queue_wf q -> items_count_ q <> capacity_ q ->
  contents (after_enqueue q item_) = contents q ++ [item_].
Proof.
  intros W Hc.
  pose proof (wf_capacity q W). pose proof (wf_count q W).
  unfold contents. cbn [after_enqueue items_count_].
  replace (Z.to_nat (items_count_ q + 1)) with (S (Z.to_nat (items_count_ q)))
    by lia.
  rewrite seq_S, map_app. cbn [map Nat.add]. f_equal.
  - apply map_ext_in. intros k Hk%in_seq.
    rewrite slot_after_enqueue by (trivial; lia).
    destruct (Z.eqb_spec (Z.of_nat k) (items_count_ q)); [lia|reflexivity].
  - rewrite slot_after_enqueue by (trivial; lia).
    destruct (Z.eqb_spec (Z.of_nat (Z.to_nat (items_count_ q)))
                         (items_count_ q)); [reflexivity|lia].
Qed.

Lemma contents_before_dequeue (q : nm_queue) :
  queue_wf q -> items_count_ q <> 0 ->
  contents q = slot q 0 :: contents (after_dequeue q).
Proof.
  intros W Hc.
  pose proof (wf_capacity q W). pose proof (wf_count q W).
  unfold contents. cbn [after_dequeue items_count_].
  replace (Z.to_nat (items_count_ q))
    with (S (Z.to_nat (items_count_ q - 1))) by lia.
  cbn [seq map]. f_equal.
  rewrite <- seq_shift, map_map.
  apply map_ext_in. intros k Hk%in_seq.
  rewrite slot_after_dequeue by (trivial; lia).
  destruct (Z.eqb_spec (Z.of_nat k) (capacity_ q - 1)); [lia|].
  f_equal. lia.
Qed.

(** ** Slots outside the buffered range stay [NULL] *)

Lemma free_slots_null_create (malloc_ok calloc_ok : bool) (n : Z)
    (q : nm_queue) :
  nm_queue_create malloc_ok calloc_ok n = Some q -> free_slots_null q.
Proof.
  intros Hc. apply create_some in Hc as [_ ->].
  intros k Hk. unfold slot. cbn.
  destruct (replicate (Z.to_nat n) NULL !! _) eqn:E; [|reflexivity].
  apply lookup_replicate in E as [-> _]. reflexivity.
Qed.

Lemma free_slots_null_after_enqueue (q : nm_queue) (item_ : ptr) :
  queue_wf q -> items_count_ q <> capacity_ q ->
  free_slots_null q -> free_slots_null (after_enqueue q item_).
Proof.
  intros W Hc F k Hk. pose proof (wf_count q W).
  cbn [after_enqueue items_count_ capacity_] in Hk.
  rewrite slot_after_enqueue by (trivial; lia).
  destruct (Z.eqb_spec k (items_count_ q)); [lia|]. apply F. lia.
Qed.

Lemma free_slots_null_after_dequeue (q : nm_queue) :
  queue_wf q -> items_count_ q <> 0 ->
  free_slots_null q -> free_slots_null (after_dequeue q).
Proof.
  intros W Hc F k Hk. pose proof (wf_count q W).
  cbn [after_dequeue items_count_ capacity_] in Hk.
  rewrite slot_after_dequeue by (trivial; lia).
  destruct (Z.eqb_spec k (capacity_ q - 1)); [reflexivity|]. apply F. lia.
Qed.

(** ** The loop of [nm_queue_for_each] *)

Section ForEachProofs.

Context {C : Type}.
Lemma visit_calls_le (callback_ : action_callback C) (l : list ptr)
    (context_ : C) :
  (snd (fst (visit callback_ l context_)) <= length l)%nat.
Proof.
  revert context_. induction l as [|x l IH]; intros c; cbn; [lia|].
  destruct (callback_ x c) as [r c1].
  destruct (r =? 0); cbn; [lia|].
  specialize (IH c1). destruct (visit callback_ l c1) as [[s m] c2].
  cbn in *. lia.
Qed.

Lemma slots_from_cons (q : nm_queue) (k : Z) (n : nat) :
  slots_from q k (S n) = slot q k :: slots_from q (k + 1) n.
Proof.
  unfold slots_from. cbn [seq map]. f_equal.
  - f_equal. lia.
  - rewrite <- seq_shift, map_map. apply map_ext. intros j. f_equal. lia.
Qed.

Lemma slots_from_head (q : nm_queue) :
  slots_from q 0 (Z.to_nat (items_count_ q)) = contents q.
Proof. reflexivity. Qed.

Lemma wrap_size_t_minus_one : wrap_size_t (0 - 1) = MAX_SIZE_T.
Proof. reflexivity. Qed.

(** With [n] items left to visit from slot [k], the loop calls the
    callback as [visit] says; it leaves [items_left] at the number of
    unvisited items when the callback stops it, and wrapped around to
    [MAX_SIZE_T] when it runs to the end. *)
Lemma for_each_loop_spec (q : nm_queue) (callback_ : action_callback C)
    (n : nat) :
  queue_wf q ->
  forall (fuel : nat) (k : Z) (context_ : C),
  (n < fuel)%nat -> 0 <= k -> k + Z.of_nat n <= capacity_ q ->
  for_each_loop fuel (items_ q) (capacity_ q) callback_
                (Z.of_nat n) (slot_index q k) context_
  = Ret (let '(stopped, m, c) := visit callback_ (slots_from q k n) context_ in
         (if stopped then Z.of_nat n - Z.of_nat m else MAX_SIZE_T, c)).
Proof.
  intros W.
  pose proof (wf_capacity q W) as Hcap. pose proof (wf_length q W) as Hl.
  induction n as [|n IH]; intros fuel k c Hf Hk Hn;
    (destruct fuel as [|fuel]; [lia|]).
  - cbn. reflexivity.
  - pose proof (slot_index_range q k ltac:(lia)) as Hr.
    rewrite slots_from_cons. cbn [for_each_loop visit].
    destruct (Z.ltb_spec 0 (Z.of_nat (S n))); [|lia].
    rewrite load_in_range by lia. cbn [bind]. fold (slot q k).
    destruct (callback_ (slot q k) c) as [r c1].
    replace (wrap_size_t (Z.of_nat (S n) - 1)) with (Z.of_nat n)
      by (rewrite wrap_size_t_small; lia).
    destruct (r =? 0).
    + f_equal. f_equal. lia.
    + rewrite wrap_size_t_small by lia.
      rewrite umod_nonzero by lia. cbn [bind].
      replace ((slot_index q k + 1) mod capacity_ q)
        with (slot_index q (k + 1)).
      2:{ unfold slot_index. rewrite Z.add_mod_idemp_l by lia.
          f_equal. lia. }
      rewrite IH by lia.
      destruct (visit callback_ (slots_from q (k + 1) n) c1) as [[s m] c2].
      destruct s; f_equal; f_equal; lia.
Qed.

(** [nm_queue_for_each] on a well-formed queue: the callback sees the
    buffered items oldest first, up to and including the one it stops
    at; the result is the number of calls when the callback stopped the
    pass, and one more than the number of items when it did not. *)
Lemma for_each_spec (q : nm_queue) (callback_ : action_callback C)
    (context_ : C) :
  queue_wf q ->
  nm_queue_for_each (Some q) (Some callback_) context_
  = Ret (let '(stopped, m, c) := visit callback_ (contents q) context_ in
         (if stopped then Z.of_nat m else wrap_size_t (items_count_ q + 1), c)).
Proof.
  intros W.
  pose proof (wf_capacity q W) as Hcap. pose proof (wf_count q W) as Hn.
  pose proof (wf_head q W) as Hh.
  unfold nm_queue_for_each.
  replace (head_ q) with (slot_index q 0) at 1.
  2:{ unfold slot_index. rewrite Z.add_0_r, Z.mod_small; lia. }
  rewrite <- (Z2Nat.id (items_count_ q)) at 2 by lia.
  rewrite for_each_loop_spec by (trivial; lia).
  rewrite slots_from_head.
  pose proof (visit_calls_le callback_ (contents q) context_) as Hm.
  rewrite contents_length in Hm.
  destruct (visit callback_ (contents q) context_) as [[s m] c2].
  cbn in Hm. cbn [bind]. destruct s; f_equal; f_equal.
  - rewrite wrap_size_t_small; lia.
  - unfold wrap_size_t, MAX_SIZE_T.
    replace (items_count_ q - (SIZE_T_MODULUS - 1))
      with (items_count_ q + 1 + (-1) * SIZE_T_MODULUS) by lia.
    apply Z.mod_add. discriminate.
Qed.

End ForEachProofs.

(** ** Sequences of calls on a well-formed queue *)

Section CallProofs.

Context {C : Type}.

(** Closes the side goals of a call that leaves the queue as it was. *)
Ltac unchanged_queue :=
  split; [reflexivity|];
  split; [assumption|];
  split; [reflexivity|];
  split; [intros; assumption | discriminate].

Lemma enqueued_items_cons (c : call C) (cs : list (call C)) :
  enqueued_items (c :: cs) = enqueued_items [c] ++ enqueued_items cs.
Proof. destruct c; reflexivity. Qed.

Lemma dequeued_items_cons (a : answer C) (rs : list (answer C)) :
  dequeued_items (a :: rs) = dequeued_items [a] ++ dequeued_items rs.
Proof. destruct a as [|[] []| | |]; reflexivity. Qed.

(** One call on a well-formed queue runs to completion and leaves a
    well-formed queue of the same capacity; a successful call appends to
    the buffered items or takes their first. *)
Lemma run_call_wf (q : nm_queue) (c : call C) :
  queue_wf q ->
  exists a q',
    run_call (Some q) c = Ret (a, Some q') /\
    queue_wf q' /\
    capacity_ q' = capacity_ q /\
    (free_slots_null q -> free_slots_null q') /\
    (is_success a = true ->
     contents q ++ enqueued_items [c] = dequeued_items [a] ++ contents q').
Proof.
  intros W. destruct c as [item_|[old|]| | |[cb|] ctx]; cbn [run_call].
  - (* Enqueue *)
    destruct (Z.eq_dec item_ NULL) as [->|Hi].
    { exists (Enqueued NM_QUEUE_UNINITIALIZED_ERROR), q. cbn.
      unchanged_queue. }
    destruct (Z.eq_dec (items_count_ q) (capacity_ q)) as [Hc|Hc].
    { exists (Enqueued NM_QUEUE_OVERFLOW_ERROR), q.
      unfold nm_queue_enqueue.
      destruct (Z.eqb_spec item_ NULL); [contradiction|].
      destruct (Z.eqb_spec (capacity_ q) (items_count_ q)); [|congruence].
      cbn. unchanged_queue. }
    exists (Enqueued NM_QUEUE_SUCCESS), (after_enqueue q item_).
    rewrite enqueue_success by trivial. cbn [bind fst snd].
    split; [reflexivity|].
    split; [now apply after_enqueue_wf|].
    split; [reflexivity|].
    split; [now apply free_slots_null_after_enqueue|].
    intros _. cbn. now rewrite contents_after_enqueue.
  - (* Dequeue into a cell *)
    destruct (Z.eq_dec (items_count_ q) 0) as [Hc|Hc].
    { exists (Dequeued NM_QUEUE_UNDERFLOW_ERROR (Some old)), q.
      unfold nm_queue_dequeue.
      destruct (Z.eqb_spec (items_count_ q) 0); [|contradiction].
      cbn. unchanged_queue. }
    exists (Dequeued NM_QUEUE_SUCCESS (Some (slot q 0))), (after_dequeue q).
    rewrite dequeue_success by trivial. cbn [bind fst snd].
    split; [reflexivity|].
    split; [now apply after_dequeue_wf|].
    split; [reflexivity|].
    split; [now apply free_slots_null_after_dequeue|].
    intros _. cbn. rewrite app_nil_r. now apply contents_before_dequeue.
  - (* Dequeue with a NULL output pointer *)
    exists (Dequeued NM_QUEUE_UNINITIALIZED_ERROR None), q. cbn.
    unchanged_queue.
  - exists (Emptiness (nm_queue_is_empty (Some q))), q.
    unchanged_queue.
  - exists (CapacityIs (nm_queue_capacity (Some q))), q.
    unchanged_queue.
  - rewrite for_each_spec by trivial. cbn [bind].
    destruct (visit cb (contents q) ctx) as [[s m] c2].
    eexists _, q. unchanged_queue.
  - exists (Visited MAX_SIZE_T ctx), q. cbn.
    unchanged_queue.
Qed.

Lemma run_calls_wf (cs : list (call C)) :
  forall q : nm_queue,
  queue_wf q ->
  exists rs q',
    run_calls (Some q) cs = Ret (rs, Some q') /\
    queue_wf q' /\
    capacity_ q' = capacity_ q /\
    (free_slots_null q -> free_slots_null q') /\
    (forallb is_success rs = true ->
     contents q ++ enqueued_items cs = dequeued_items rs ++ contents q').
Proof.
  induction cs as [|c cs IH]; intros q W.
  - exists [], q. cbn.
    split; [reflexivity|]. split; [assumption|]. split; [reflexivity|].
    split; [tauto|]. intros _. apply app_nil_r.
  - destruct (run_call_wf q c W) as (a & q1 & E1 & W1 & K1 & F1 & S1).
    destruct (IH q1 W1) as (rs & q' & E & W' & K & F & S).
    exists (a :: rs), q'. cbn [run_calls]. rewrite E1. cbn [bind snd fst].
    rewrite E. cbn [bind snd fst].
    split; [reflexivity|]. split; [assumption|]. split; [congruence|].
    split; [tauto|].
    cbn [forallb]. intros [Ha Hrs]%andb_true_iff.
    rewrite enqueued_items_cons, dequeued_items_cons.
    rewrite app_assoc, (S1 Ha), <- !app_assoc. f_equal. now apply S.
Qed.

End CallProofs.

(* ================================================================== *)
(** * The queue: main results *)

Lemma sample_full_queue_wf : queue_wf sample_full_queue.
Proof.
  constructor; try reflexivity;
    unfold MAX_SIZE_T, SIZE_T_MODULUS, SIZE_T_BITS; cbn; lia.
Defined.

Lemma sample_queue_wf : queue_wf sample_queue.
Proof.
  constructor; try reflexivity;
    unfold MAX_SIZE_T, SIZE_T_MODULUS, SIZE_T_BITS; cbn; lia.
Defined.

Lemma sample_capacity_in_range : 0 < 2 <= MAX_SIZE_T.
Proof. split; [reflexivity|discriminate]. Defined.

(** The sample states are what the API builds. *)
Example sample_full_queue_built :
  nm_queue_enqueue (nm_queue_create true true 1) 5
  = Ret (NM_QUEUE_SUCCESS, Some sample_full_queue).
Proof. reflexivity. Qed.

Example sample_queue_built :
  nm_queue_enqueue (nm_queue_create true true 2) 7
  = Ret (NM_QUEUE_SUCCESS, Some sample_queue).
Proof. reflexivity. Qed.



(** C4 (what the code does at the failing input). On the queue of
    capacity 2 that holds the single item 7, a visitor that never asks
    to stop is called once, on 7, and [nm_queue_for_each] returns 2, one
    more than the number of items visited. *)
Theorem nm_queue_for_each_full_pass_returns_one_more :
  nm_queue_for_each (Some sample_queue) (Some record_all) [] = Ret (2, [7]).
Proof. reflexivity. Qed.

(** The two other ways a pass can end, for comparison: stopped by the
    callback at the first item, the result is the number of calls; on an
    empty queue the callback is not called and the result is 1. *)
Example for_each_stopped_returns_calls :
  nm_queue_for_each (Some sample_queue) (Some record_and_stop) []
  = Ret (1, [7]).
Proof. reflexivity. Qed.

Example for_each_empty_returns_one :
  nm_queue_for_each (nm_queue_create true true 2) (Some record_all) []
  = Ret (1, []).
Proof. reflexivity. Qed.

(** C5 (counterexample). On a full queue, enqueueing [NULL] does not
    report overflow although the item count equals the capacity. *)
Lemma nm_queue_enqueue_null_on_full_queue :
  items_count_ sample_full_queue = capacity_ sample_full_queue /\
  nm_queue_enqueue (Some sample_full_queue) NULL
  = Ret (NM_QUEUE_UNINITIALIZED_ERROR, Some sample_full_queue) /\
  NM_QUEUE_UNINITIALIZED_ERROR <> NM_QUEUE_OVERFLOW_ERROR.
Proof. split; [reflexivity|]. split; [reflexivity|discriminate]. Qed.

(** C5 (amended). On a valid queue handle, [nm_queue_enqueue] of a [NULL]
    item reports [NM_QUEUE_UNINITIALIZED_ERROR] whatever the item count;
    of a non-[NULL] item it reports [NM_QUEUE_OVERFLOW_ERROR] exactly when
    the item count equals the capacity, and otherwise writes the item at
    [tail_], advances [tail_] modulo the capacity, increments the count
    and returns [NM_QUEUE_SUCCESS]. *)
Theorem nm_queue_enqueue_cases (q : nm_queue) (item_ : ptr) :
  queue_wf q ->
  (item_ = NULL ->
   nm_queue_enqueue (Some q) item_
   = Ret (NM_QUEUE_UNINITIALIZED_ERROR, Some q)) /\
  (item_ <> NULL ->
   (exists q', nm_queue_enqueue (Some q) item_
               = Ret (NM_QUEUE_OVERFLOW_ERROR, q'))
   <-> items_count_ q = capacity_ q) /\
  (item_ <> NULL -> items_count_ q = capacity_ q ->
   nm_queue_enqueue (Some q) item_ = Ret (NM_QUEUE_OVERFLOW_ERROR, Some q)) /\
  (item_ <> NULL -> items_count_ q <> capacity_ q ->
   exists q',
     nm_queue_enqueue (Some q) item_ = Ret (NM_QUEUE_SUCCESS, Some q') /\
     items_ q' = <[Z.to_nat (tail_ q) := item_]> (items_ q) /\
     items_ q' !! Z.to_nat (tail_ q) = Some item_ /\
     tail_ q' = (tail_ q + 1) mod capacity_ q /\
     items_count_ q' = items_count_ q + 1 /\
     head_ q' = head_ q /\
     capacity_ q' = capacity_ q).
Proof.
  intros W.
  assert (Hfull : item_ <> NULL -> items_count_ q = capacity_ q ->
    nm_queue_enqueue (Some q) item_ = Ret (NM_QUEUE_OVERFLOW_ERROR, Some q)).
  { intros Hi Hc. unfold nm_queue_enqueue.
    destruct (Z.eqb_spec item_ NULL); [contradiction|].
    destruct (Z.eqb_spec (capacity_ q) (items_count_ q)); congruence. }
  split; [|split; [|split]]; trivial.
  - intros ->. reflexivity.
  - intros Hi. split.
    + intros [q' E].
      destruct (Z.eq_dec (items_count_ q) (capacity_ q)) as [|Hc]; trivial.
      rewrite enqueue_success in E by trivial. discriminate.
    + intros Hc. exists (Some q). auto.
  - intros Hi Hc. exists (after_enqueue q item_).
    split; [now apply enqueue_success|].
    cbn. repeat split.
    apply list_lookup_insert_eq.
    pose proof (wf_tail_range q W). pose proof (wf_length q W). lia.
Qed.

Lemma nm_queue_enqueue_cases_witness :
  exists q',
    nm_queue_enqueue (Some sample_queue) 8 = Ret (NM_QUEUE_SUCCESS, Some q') /\
    items_ q' = <[Z.to_nat (tail_ sample_queue) := 8]> (items_ sample_queue) /\
    items_ q' !! Z.to_nat (tail_ sample_queue) = Some 8 /\
    tail_ q' = (tail_ sample_queue + 1) mod capacity_ sample_queue /\
    items_count_ q' = items_count_ sample_queue + 1 /\
    head_ q' = head_ sample_queue /\
    capacity_ q' = capacity_ sample_queue.
Proof.
  apply (proj2 (proj2 (proj2
           (nm_queue_enqueue_cases sample_queue 8 sample_queue_wf))));
    discriminate.
Defined.

(** C6. On a non-empty queue, [nm_queue_dequeue] succeeds, hands out the
    item stored in the slot at [head_] and leaves [NULL] in that slot; if
    every slot outside the buffered range was [NULL] before, the same
    holds afterwards, so the array keeps no handle of an item that was
    handed out. *)
Theorem nm_queue_dequeue_clears_slot (q : nm_queue) (old : ptr) :
  queue_wf q -> items_count_ q <> 0 ->
  exists (x : ptr) (q' : nm_queue),
    items_ q !! Z.to_nat (head_ q) = Some x /\
    nm_queue_dequeue (Some q) (Some old)
    = Ret (NM_QUEUE_SUCCESS, Some q', Some x) /\
    items_ q' !! Z.to_nat (head_ q) = Some NULL /\
    (free_slots_null q -> free_slots_null q').
Proof.
  intros W Hc.
  pose proof (wf_head q W) as Hh. pose proof (wf_length q W) as Hl.
  destruct (lookup_lt_is_Some_2 (items_ q) (Z.to_nat (head_ q)))
    as [x Hx]; [lia|].
  exists x, (after_dequeue q).
  split; [assumption|]. split; [|split].
  - rewrite dequeue_success by trivial. unfold slot, slot_index.
    rewrite Z.add_0_r, Z.mod_small, Hx by lia. reflexivity.
  - cbn. apply list_lookup_insert_eq. lia.
  - now apply free_slots_null_after_dequeue.
Qed.

Lemma nm_queue_dequeue_clears_slot_witness :
  exists (x : ptr) (q' : nm_queue),
    items_ sample_queue !! Z.to_nat (head_ sample_queue) = Some x /\
    nm_queue_dequeue (Some sample_queue) (Some NULL)
    = Ret (NM_QUEUE_SUCCESS, Some q', Some x) /\
    items_ q' !! Z.to_nat (head_ sample_queue) = Some NULL /\
    (free_slots_null sample_queue -> free_slots_null q').
Proof.
  apply (nm_queue_dequeue_clears_slot sample_queue NULL sample_queue_wf).
  discriminate.
Defined.

(** C7. A queue made by [nm_queue_create] satisfies
    [0 <= items_count_ <= capacity_], [head_ < capacity_] and
    [tail_ < capacity_], and after any sequence of calls of
    [nm_queue_enqueue], [nm_queue_dequeue], [nm_queue_is_empty],
    [nm_queue_capacity] and [nm_queue_for_each], with any arguments,
    every call has run to completion and the queue satisfies it still. *)
Theorem nm_queue_invariant (C : Type) (n : Z) (malloc_ok calloc_ok : bool)
    (q : nm_queue) (cs : list (call C)) :
  0 < n <= MAX_SIZE_T ->
  nm_queue_create malloc_ok calloc_ok n = Some q ->
  queue_inv q /\
  exists (rs : list (answer C)) (q' : nm_queue),
    run_calls (Some q) cs = Ret (rs, Some q') /\ queue_inv q'.
Proof.
  intros Hn Hc.
  assert (Hn' : 0 <= n <= MAX_SIZE_T) by lia.
  destruct (create_wf _ _ _ _ Hn' Hc) as (W & _ & _).
  split; [now apply queue_wf_inv|].
  destruct (run_calls_wf cs q W) as (rs & q' & E & W' & _).
  exists rs, q'. split; [assumption|now apply queue_wf_inv].
Qed.

Lemma nm_queue_invariant_witness :
  queue_inv {| items_ := [NULL; NULL]; capacity_ := 2; head_ := 0;
               tail_ := 0; items_count_ := 0 |} /\
  exists (rs : list (answer (list ptr))) (q' : nm_queue),
    run_calls (Some {| items_ := [NULL; NULL]; capacity_ := 2; head_ := 0;
                       tail_ := 0; items_count_ := 0 |})
              sample_mixed_calls
    = Ret (rs, Some q') /\ queue_inv q'.
Proof.
  apply (nm_queue_invariant (list ptr) 2 true true).
  - exact sample_capacity_in_range.
  - reflexivity.
Defined.

(** C9. Called with a [NULL] queue handle, every operation returns its
    error value without touching memory: [nm_queue_enqueue] and
    [nm_queue_dequeue] return [NM_QUEUE_UNINITIALIZED_ERROR],
    [nm_queue_is_empty] returns -1, which is neither 0 nor 1, and
    [nm_queue_capacity] and [nm_queue_for_each] return [(size_t)-1],
    that is 2^64 - 1. *)
Theorem nm_queue_null_handle :
  (forall item_ : ptr,
      nm_queue_enqueue None item_ = Ret (NM_QUEUE_UNINITIALIZED_ERROR, None)) /\
  (forall item_ptr_ : option ptr,
      nm_queue_dequeue None item_ptr_
      = Ret (NM_QUEUE_UNINITIALIZED_ERROR, None, item_ptr_)) /\
  (nm_queue_is_empty None = -1 /\ -1 <> 0 /\ -1 <> 1) /\
  (nm_queue_capacity None = MAX_SIZE_T /\
   MAX_SIZE_T = wrap_size_t (-1) /\ MAX_SIZE_T = 2 ^ 64 - 1) /\
  (forall (C : Type) (callback_ : option (action_callback C)) (context_ : C),
      nm_queue_for_each None callback_ context_ = Ret (MAX_SIZE_T, context_)).
Proof.
  repeat split; try reflexivity; discriminate.
Qed.

(** C10. When [nm_queue_enqueue] or [nm_queue_dequeue] returns a status
    other than [NM_QUEUE_SUCCESS], the queue behind the handle ([head_],
    [tail_], [items_count_] and the array) is as it was before the call,
    and so is the caller's output cell. *)
Theorem nm_queue_failure_is_atomic (queue_ : option nm_queue) :
  (forall (item_ : ptr) (st : nm_queue_status) (queue' : option nm_queue),
      nm_queue_enqueue queue_ item_ = Ret (st, queue') ->
      st <> NM_QUEUE_SUCCESS -> queue' = queue_) /\
  (forall (item_ptr_ : option ptr) (st : nm_queue_status)
          (queue' : option nm_queue) (cell' : option ptr),
      nm_queue_dequeue queue_ item_ptr_ = Ret (st, queue', cell') ->
      st <> NM_QUEUE_SUCCESS -> queue' = queue_ /\ cell' = item_ptr_).
Proof.
  split.
  - intros item_ st queue' E Hst. unfold nm_queue_enqueue in E.
    destruct queue_ as [q|]; [|now injection E as <- <-].
    destruct (item_ =? NULL); [now injection E as <- <-|].
    destruct (capacity_ q =? items_count_ q); [now injection E as <- <-|].
    destruct (store (items_ q) (tail_ q) item_); cbn in E; try discriminate.
    destruct (umod _ _); cbn in E; try discriminate.
    injection E as <- <-. contradiction.
  - intros item_ptr_ st queue' cell' E Hst. unfold nm_queue_dequeue in E.
    destruct queue_ as [q|]; [|now injection E as <- <- <-].
    destruct item_ptr_ as [old|]; [|now injection E as <- <- <-].
    destruct (items_count_ q =? 0); [now injection E as <- <- <-|].
    destruct (load (items_ q) (head_ q)); cbn in E; try discriminate.
    destruct (store (items_ q) (head_ q) NULL); cbn in E; try discriminate.
    destruct (umod _ _); cbn in E; try discriminate.
    injection E as <- <- <-. contradiction.
Qed.

Lemma nm_queue_failure_is_atomic_witness :
  Some sample_full_queue = Some sample_full_queue /\
  (Some {| items_ := [NULL]; capacity_ := 1; head_ := 0; tail_ := 0;
           items_count_ := 0 |}
   = Some {| items_ := [NULL]; capacity_ := 1; head_ := 0; tail_ := 0;
             items_count_ := 0 |} /\
   Some 3 = Some 3).
Proof.
  split.
  - apply (proj1 (nm_queue_failure_is_atomic (Some sample_full_queue))
             6 NM_QUEUE_OVERFLOW_ERROR (Some sample_full_queue)).
    + reflexivity.
    + discriminate.
  - apply (proj2 (nm_queue_failure_is_atomic
                    (Some {| items_ := [NULL]; capacity_ := 1; head_ := 0;
                             tail_ := 0; items_count_ := 0 |}))
             (Some 3) NM_QUEUE_UNDERFLOW_ERROR).
    + reflexivity.
    + discriminate.
Defined.

(* ================================================================== *)
(** * The barrier: supporting lemmas *)

(** ** Counting threads *)

Section Tally.

Variable f : barrier_pc -> Z.
Hypothesis f_nonneg : forall pc, 0 <= f pc.

Lemma tally_insert (l : list barrier_pc) (t : nat) (pc pc' : barrier_pc) :
  l !! t = Some pc ->
  tally f (<[t := pc']> l) = tally f l - f pc + f pc'.
Proof.
  revert t. induction l as [|x l IH]; intros [|t] H; simpl in *; try discriminate.
  - injection H as ->. lia.
  - rewrite (IH t H). lia.
Qed.

Lemma tally_nonneg (l : list barrier_pc) : 0 <= tally f l.
Proof.
  induction l as [|x l IH]; cbn; [lia|]. specialize (f_nonneg x). lia.
Qed.

Lemma tally_member (l : list barrier_pc) (t : nat) (pc : barrier_pc) :
  l !! t = Some pc -> f pc <= tally f l.
Proof.
  revert t. induction l as [|x l IH]; intros [|t] H; simpl in *; try discriminate.
  - injection H as ->. pose proof (tally_nonneg l). lia.
  - specialize (IH t H). specialize (f_nonneg x). lia.
Qed.

Lemma tally_le_length (l : list barrier_pc) :
  (forall pc, f pc <= 1) -> tally f l <= Z.of_nat (length l).
Proof.
  intros Hf. induction l as [|x l IH]; cbn [tally length]; [lia|].
  specialize (Hf x). lia.
Qed.

Lemma tally_zero (l : list barrier_pc) (j : nat) (pc : barrier_pc) :
  tally f l = 0 -> l !! j = Some pc -> f pc = 0.
Proof.
  intros Hz Hj. pose proof (tally_member l j pc Hj).
  specialize (f_nonneg pc). lia.
Qed.

Lemma tally_const (l : list barrier_pc) (v : Z) :
  (forall (j : nat) (pc : barrier_pc), l !! j = Some pc -> f pc = v) ->
  tally f l = v * Z.of_nat (length l).
Proof.
  induction l as [|x l IH]; intros H; cbn [tally length]; [lia|].
  rewrite IH by (intros j pc Hj; apply (H (S j) pc Hj)).
  rewrite (H O x eq_refl). lia.
Qed.

(** A thread that accounts for the whole count is the only one counted. *)
Lemma tally_sole (l : list barrier_pc) (t j : nat) (pc pc' : barrier_pc) :
  l !! t = Some pc -> tally f l <= f pc ->
  j <> t -> l !! j = Some pc' -> f pc' = 0.
Proof.
  revert t j. induction l as [|x l IH]; intros [|t] [|j] Ht Hle Hj Hl;
    simpl in *; try discriminate; try congruence.
  - injection Ht as ->. apply (tally_zero l j); [|assumption].
    pose proof (tally_nonneg l). lia.
  - injection Hl as ->. pose proof (tally_member l t pc Ht).
    specialize (f_nonneg pc'). lia.
  - apply (IH t j); trivial; [|congruence].
    specialize (f_nonneg x). lia.
Qed.

End Tally.

(** ** The barrier under interleaving *)

Lemma in_critical_nonneg (pc : barrier_pc) : 0 <= in_critical pc.
Proof. destruct pc; cbn; lia. Qed.

Lemma has_arrived_nonneg (pc : barrier_pc) : 0 <= has_arrived pc.
Proof. destruct pc; cbn; lia. Qed.

Lemma has_arrived_le_1 (pc : barrier_pc) : has_arrived pc <= 1.
Proof. destruct pc; cbn; lia. Qed.

Lemma has_returned_nonneg (pc : barrier_pc) : 0 <= has_returned pc.
Proof. destruct pc; cbn; lia. Qed.

Lemma fresh_barrier_eq (n : Z) :
  fresh_barrier n
  = {| max_threads_count_ := n; waiting_threads_count_ := 0;
       mtx_ := {| lock_ := 1 |}; turnstile_ := 0 |}.
Proof. reflexivity. Qed.

Lemma lookup_insert_cases (l : list barrier_pc) (t j : nat)
    (pc pc' x : barrier_pc) :
  l !! t = Some pc -> <[t := pc']> l !! j = Some x ->
  (j = t /\ x = pc') \/ (j <> t /\ l !! j = Some x).
Proof.
  intros Ht Hj. destruct (Nat.eq_dec j t) as [->|Hne].
  - left. apply lookup_lt_Some in Ht.
    rewrite list_lookup_insert_eq in Hj by assumption.
    split; congruence.
  - right. rewrite list_lookup_insert_ne in Hj by congruence. now split.
Qed.

(** While a thread is between lock and unlock, no other thread is. *)
Lemma critical_alone (n : Z) (s : system) (t j : nat) (pc pc' : barrier_pc) :
  barrier_inv n s ->
  threads s !! t = Some pc -> in_critical pc = 1 ->
  j <> t -> threads s !! j = Some pc' -> in_critical pc' = 0.
Proof.
  intros I Ht Hc Hj Hl. destruct (inv_lock n s I) as [H0 H1].
  apply (tally_sole in_critical in_critical_nonneg (threads s) t j pc pc');
    trivial. lia.
Qed.

Lemma critical_holds_lock (n : Z) (s : system) (t : nat) (pc : barrier_pc) :
  barrier_inv n s ->
  threads s !! t = Some pc -> in_critical pc = 1 ->
  lock_ (mtx_ (shared s)) = 0.
Proof.
  intros I Ht Hc. destruct (inv_lock n s I) as [H0 H1].
  pose proof (tally_member in_critical in_critical_nonneg _ _ _ Ht). lia.
Qed.

Lemma barrier_inv_init (n : Z) (callers : nat) :
  1 <= n <= SEM_VALUE_MAX -> Z.of_nat callers < UINT_MODULUS ->
  barrier_inv n (barrier_system n callers).
Proof.
  intros Hn Hc. unfold barrier_system. rewrite fresh_barrier_eq.
  assert (Hall : forall g, g AtLock = 0 ->
                           tally g (replicate callers AtLock) = 0).
  { intros g Hg. rewrite (tally_const g _ 0); [lia|].
    intros j pc [-> _]%lookup_replicate. assumption. }
  constructor; cbn [shared threads max_threads_count_ waiting_threads_count_
                    mtx_ lock_ turnstile_]; trivial.
  - now rewrite length_replicate.
  - rewrite Hall by reflexivity. lia.
  - now rewrite Hall.
  - lia.
  - intros t i m [E _]%lookup_replicate. discriminate.
  - intros _. rewrite Hall by reflexivity.
    destruct (Z.leb_spec n 0); lia.
Qed.

Lemma sem_value_max_lt_uint : SEM_VALUE_MAX < UINT_MODULUS.
Proof. reflexivity. Qed.

Lemma barrier_step_inv (n : Z) (s s' : system) (t : nat) :
  barrier_inv n s -> sys_step s (t, false) = Some s' ->
  barrier_inv n s' /\
  tally (steps_left n) (threads s') + 1 <= tally (steps_left n) (threads s).
Proof.
  intros I Hs. destruct s as [b l]. unfold sys_step in Hs.
  cbn [threads shared fst snd] in Hs.
  destruct (l !! t) as [pc|] eqn:Ht; [|discriminate].
  assert (Halone : in_critical pc = 1 ->
            forall j i m, j <> t -> l !! j <> Some (AtPost i m)).
  { intros Hc j i m Hj Hl.
    pose proof (critical_alone n _ t j pc _ I Ht Hc Hj Hl). discriminate. }
  assert (Hheld : in_critical pc = 1 -> lock_ (mtx_ b) = 0).
  { intros Hc. now apply (critical_holds_lock n _ t pc I Ht). }
  destruct I as [Hn HT Hmax [Hl0 Hl] Hcnt Hts Hpost Hrel].
  cbn [threads shared] in *.
  pose proof sem_value_max_lt_uint as Hmaxlt.
  pose proof (tally_nonneg has_returned has_returned_nonneg l) as Hret0.
  pose proof (tally_nonneg has_arrived has_arrived_nonneg l) as Harr0.
  pose proof (fun pc' => tally_insert in_critical l t pc pc' Ht) as Tc.
  pose proof (fun pc' => tally_insert has_arrived l t pc pc' Ht) as Ta.
  pose proof (fun pc' => tally_insert has_returned l t pc pc' Ht) as Tr.
  pose proof (fun pc' => tally_insert (steps_left n) l t pc pc' Ht) as Tm.
  pose proof (fun pc' x j => lookup_insert_cases l t j pc pc' x Ht) as Hcases.
  assert (Hbefore : forall pc',
    (forall i m, pc <> AtPost i m) ->
    (forall j i m, <[t := pc']> l !! j <> Some (AtPost i m)) ->
    forall j i m, l !! j <> Some (AtPost i m)).
  { intros pc' Hpc Hno j i m Hj. destruct (Nat.eq_dec j t) as [->|Hne].
    - rewrite Ht in Hj. injection Hj as ->. now apply (Hpc i m).
    - apply (Hno j i m). now rewrite list_lookup_insert_ne by congruence. }
  destruct pc; cbn [nm_barrier_wait_step] in Hs.
  - (* AtLock *)
    unfold nm_mutex_lock, sem_wait in Hs.
    destruct (Z.ltb_spec 0 (lock_ (mtx_ b))); [|discriminate].
    injection Hs as <-. cbn [threads shared].
    rewrite Tm. cbn [steps_left]. split; [|lia].
    constructor;
      cbn [threads shared set_mtx max_threads_count_ waiting_threads_count_
           mtx_ lock_ turnstile_];
      rewrite ?length_insert, ?Tc, ?Ta, ?Tr;
      cbn [in_critical has_arrived has_returned]; trivial; try lia.
    + intros j i m Hj.
      destruct (Hcases _ _ _ Hj) as [[-> E]|[Hne E]]; [discriminate|].
      specialize (Hpost j i m E). lia.
    + intros Hno. rewrite <- Hrel; [lia|].
      apply (Hbefore AtArrive); [discriminate|assumption].
  - (* AtArrive *)
    specialize (Halone eq_refl). specialize (Hheld eq_refl).
    assert (Hno : forall j i m, l !! j <> Some (AtPost i m)).
    { intros j i m Hj. destruct (Nat.eq_dec j t) as [->|Hne];
        [congruence|]. now apply (Halone j i m). }
    specialize (Hrel Hno).
    assert (Hw : wrap_uint (waiting_threads_count_ b + 1)
                 = waiting_threads_count_ b + 1).
    { apply wrap_uint_small.
      pose proof (tally_le_length has_arrived (<[t := AtUnlock]> l)
                    has_arrived_le_1) as Hle.
      rewrite Ta, length_insert in Hle. cbn [has_arrived] in Hle. lia. }
    cbn [set_waiting waiting_threads_count_ max_threads_count_] in Hs.
    rewrite Hw in Hs.
    destruct (Z.eqb_spec (waiting_threads_count_ b + 1)
                         (max_threads_count_ b)) as [Heq|Hneq];
      injection Hs as <-; cbn [threads shared];
      rewrite Tm; cbn [steps_left]; (split; [|lia]);
      (constructor;
       cbn [threads shared set_waiting max_threads_count_
            waiting_threads_count_ mtx_ lock_ turnstile_];
       rewrite ?length_insert, ?Tc, ?Ta, ?Tr;
       cbn [in_critical has_arrived has_returned]; trivial; try lia).
    + intros j i m Hj.
      destruct (Hcases _ _ _ Hj) as [[-> E]|[Hne E]];
        [|now destruct (Hno j i m)].
      injection E as -> ->.
      destruct (Z.leb_spec n (waiting_threads_count_ b)); lia.
    + intros Hno'. destruct (Hno' t 0 (max_threads_count_ b)).
      apply list_lookup_insert_eq. now apply lookup_lt_Some in Ht.
    + intros j i m Hj.
      destruct (Hcases _ _ _ Hj) as [[-> E]|[Hne E]];
        [discriminate|now destruct (Hno j i m)].
    + intros _.
      destruct (Z.leb_spec n (waiting_threads_count_ b)),
               (Z.leb_spec n (waiting_threads_count_ b + 1)); lia.
  - (* AtPost *)
    specialize (Halone eq_refl). specialize (Hheld eq_refl).
    destruct (Hpost t i max_threads Ht) as (-> & Hi & Hc & Hsum).
    destruct (Z.ltb_spec i n) as [Hlt|Hge].
    + unfold sem_post in Hs.
      destruct (Z.ltb_spec (turnstile_ b) SEM_VALUE_MAX); [|lia].
      cbn [snd] in Hs. rewrite wrap_uint_small in Hs by lia.
      injection Hs as <-. cbn [threads shared].
      rewrite Tm. cbn [steps_left]. split; [|lia].
      constructor;
        cbn [threads shared set_turnstile max_threads_count_
             waiting_threads_count_ mtx_ lock_ turnstile_];
        rewrite ?length_insert, ?Tc, ?Ta, ?Tr;
        cbn [in_critical has_arrived has_returned]; trivial; try lia.
      * intros j i' m Hj.
        destruct (Hcases _ _ _ Hj) as [[-> E]|[Hne E]];
          [|now destruct (Halone j i' m)].
        injection E as -> ->. lia.
      * intros Hno'. destruct (Hno' t (i + 1) n).
        apply list_lookup_insert_eq. now apply lookup_lt_Some in Ht.
    + injection Hs as <-. cbn [threads shared].
      rewrite Tm. cbn [steps_left]. split; [|lia].
      constructor; cbn [threads shared];
        rewrite ?length_insert, ?Tc, ?Ta, ?Tr;
        cbn [in_critical has_arrived has_returned]; trivial; try lia.
      * intros j i' m Hj.
        destruct (Hcases _ _ _ Hj) as [[-> E]|[Hne E]];
          [discriminate|now destruct (Halone j i' m)].
      * intros _. destruct (Z.leb_spec n (waiting_threads_count_ b)); lia.
  - (* AtUnlock *)
    specialize (Halone eq_refl). specialize (Hheld eq_refl).
    unfold nm_mutex_unlock, sem_post in Hs. rewrite Hheld in Hs.
    cbn in Hs. injection Hs as <-. cbn [threads shared].
    rewrite Tm. cbn [steps_left]. split; [|lia].
    constructor;
      cbn [threads shared set_mtx max_threads_count_ waiting_threads_count_
           mtx_ lock_ turnstile_];
      rewrite ?length_insert, ?Tc, ?Ta, ?Tr;
      cbn [in_critical has_arrived has_returned]; trivial; try lia.
    + intros j i m Hj.
      destruct (Hcases _ _ _ Hj) as [[-> E]|[Hne E]];
        [discriminate|now destruct (Halone j i m)].
    + intros Hno. rewrite <- Hrel; [lia|].
      apply (Hbefore AtTurnstile); [discriminate|assumption].
  - (* AtTurnstile *)
    unfold sem_wait in Hs.
    destruct (Z.ltb_spec 0 (turnstile_ b)); [|discriminate].
    injection Hs as <-. cbn [threads shared].
    rewrite Tm. cbn [steps_left]. split; [|lia].
    constructor;
      cbn [threads shared set_turnstile max_threads_count_
           waiting_threads_count_ mtx_ lock_ turnstile_];
      rewrite ?length_insert, ?Tc, ?Ta, ?Tr;
      cbn [in_critical has_arrived has_returned]; trivial; try lia.
    + intros j i m Hj.
      destruct (Hcases _ _ _ Hj) as [[-> E]|[Hne E]]; [discriminate|].
      specialize (Hpost j i m E). lia.
    + intros Hno. rewrite <- Hrel; [lia|].
      apply (Hbefore Returned); [discriminate|assumption].
  - discriminate.
Qed.

Lemma sys_step_length (s s' : system) (e : event) :
  sys_step s e = Some s' -> length (threads s') = length (threads s).
Proof.
  unfold sys_step. destruct (threads s !! fst e); [|discriminate].
  destruct (nm_barrier_wait_step _ _) as [[b1 pc']|]; [|discriminate].
  intros [= <-]. apply length_insert.
Qed.

Lemma barrier_run_inv (n : Z) (sched : list event) :
  no_signal sched ->
  forall s s' : system,
  barrier_inv n s -> run_schedule s sched = Some s' ->
  barrier_inv n s' /\
  length (threads s') = length (threads s) /\
  Z.of_nat (length sched) + tally (steps_left n) (threads s')
  <= tally (steps_left n) (threads s).
Proof.
  intros Q. induction Q as [|[t i] sched Hi Q IH]; intros s s' I H;
    cbn [run_schedule] in H.
  - injection H as <-. split; [assumption|]. split; [reflexivity|].
    cbn [length]. lia.
  - cbn [snd] in Hi. subst i.
    destruct (sys_step s (t, false)) as [s1|] eqn:E; [|discriminate].
    destruct (barrier_step_inv n s s1 t I E) as [I1 M1].
    destruct (IH s1 s' I1 H) as (I' & L' & M').
    pose proof (sys_step_length s s1 (t, false) E).
    split; [assumption|]. split; [congruence|].
    cbn [length]. lia.
Qed.

Lemma steps_left_initial (n : Z) (callers : nat) :
  tally (steps_left n) (replicate callers AtLock) = (n + 5) * Z.of_nat callers.
Proof.
  rewrite (tally_const _ _ (n + 5)); [now rewrite length_replicate|].
  now intros j pc [-> _]%lookup_replicate.
Qed.

Lemma steps_left_nonneg (n : Z) (pc : barrier_pc) :
  0 <= n -> 0 <= steps_left n pc.
Proof. intros H. destruct pc; cbn; lia. Qed.

Lemma tally_plus (f g : barrier_pc -> Z) (l : list barrier_pc) :
  tally (fun pc => f pc + g pc) l = tally f l + tally g l.
Proof. induction l as [|x l IH]; cbn; lia. Qed.

(** Either some thread is inside the posting loop, or none is. *)
Lemma poster_or_none (l : list barrier_pc) :
  (exists (t : nat) (i m : Z), l !! t = Some (AtPost i m)) \/
  (forall (t : nat) (i m : Z), l !! t <> Some (AtPost i m)).
Proof.
  induction l as [|x l [(t & i & m & H)|H]].
  - right. intros t i m. now rewrite lookup_nil.
  - left. now exists (S t), i, m.
  - destruct x as [| |i m| | |];
      try (right; intros [|t] i' m'; [discriminate|apply H]).
    left. now exists O, i, m.
Qed.

(** At most [n] threads have returned, whatever the schedule. *)
Lemma barrier_inv_returned_le (n : Z) (s : system) :
  barrier_inv n s -> tally has_returned (threads s) <= n.
Proof.
  intros I. pose proof (inv_turnstile n s I). pose proof (inv_parties n s I).
  destruct (poster_or_none (threads s)) as [(t & i & m & Hp)|Hp].
  - destruct (inv_posting n s I t i m Hp) as (_ & ? & _ & ?). lia.
  - pose proof (inv_released n s I Hp) as E.
    destruct (n <=? waiting_threads_count_ (shared s)); lia.
Qed.

(** What a state looks like in which no thread can move. *)
Lemma barrier_stuck (n : Z) (s : system) :
  barrier_inv n s -> stuck s ->
  n <= Z.of_nat (length (threads s)) ->
  (forall (t : nat) (pc : barrier_pc),
      threads s !! t = Some pc -> pc = AtTurnstile \/ pc = Returned) /\
  tally has_returned (threads s) = n /\
  tally is_parked (threads s) = Z.of_nat (length (threads s)) - n /\
  waiting_threads_count_ (shared s) = Z.of_nat (length (threads s)) /\
  turnstile_ (shared s) = 0 /\
  lock_ (mtx_ (shared s)) = 1.
Proof.
  intros I S Hlen. destruct s as [b l]. cbn [threads shared] in *.
  assert (Sat : forall t pc, l !! t = Some pc ->
                             nm_barrier_wait_step false b pc = None).
  { intros t pc Ht. specialize (S t). unfold sys_step in S.
    cbn [threads shared fst snd] in S. rewrite Ht in S.
    destruct (nm_barrier_wait_step false b pc) as [[b' pc']|];
      [discriminate|].
    reflexivity. }
  destruct I as [Hn HT Hmax [Hl0 Hl] Hcnt Hts Hpost Hrel].
  cbn [threads shared] in *.
  assert (Hcrit : tally in_critical l = 0).
  { rewrite (tally_const _ _ 0); [lia|]. intros t pc Ht.
    specialize (Sat t pc Ht). destruct pc; cbn in *; try reflexivity;
      try discriminate.
    destruct (_ =? _); discriminate.
    destruct (_ <? _); discriminate. }
  assert (Hpcs : forall t pc, l !! t = Some pc ->
                              pc = AtTurnstile \/ pc = Returned).
  { intros t pc Ht. pose proof (Sat t pc Ht) as St.
    destruct pc; cbn in St; auto; try discriminate.
    - unfold nm_mutex_lock, sem_wait in St.
      destruct (Z.ltb_spec 0 (lock_ (mtx_ b))); [discriminate|lia].
    - destruct (_ =? _); discriminate.
    - destruct (_ <? _); discriminate. }
  assert (Harr : tally has_arrived l = Z.of_nat (length l)).
  { rewrite (tally_const _ _ 1); [lia|]. intros t pc Ht.
    destruct (Hpcs t pc Ht) as [-> | ->]; reflexivity. }
  assert (Hsum : tally is_parked l + tally has_returned l
                 = Z.of_nat (length l)).
  { rewrite <- tally_plus. rewrite (tally_const _ _ 1); [lia|].
    intros t pc Ht. destruct (Hpcs t pc Ht) as [-> | ->]; reflexivity. }
  assert (Hno : forall t i m, l !! t <> Some (AtPost i m)).
  { intros t i m Ht. destruct (Hpcs t _ Ht); discriminate. }
  specialize (Hrel Hno).
  destruct (Z.leb_spec n (waiting_threads_count_ b)); [|lia].
  assert (Hts0 : turnstile_ b = 0).
  { destruct (Z.eq_dec (turnstile_ b) 0) as [|Hpos]; [assumption|].
    assert (Hall : tally has_returned l = Z.of_nat (length l)).
    { rewrite (tally_const _ _ 1); [lia|]. intros t pc Ht.
      destruct (Hpcs t pc Ht) as [-> | ->]; [|reflexivity].
      specialize (Sat t _ Ht). cbn in Sat. unfold sem_wait in Sat.
      destruct (Z.ltb_spec 0 (turnstile_ b)); [discriminate|lia]. }
    lia. }
  repeat split; trivial; lia.
Qed.

Lemma stuckb_stuck (s : system) : stuckb s = true -> stuck s.
Proof.
  unfold stuckb. rewrite forallb_forall. intros H t.
  destruct (Nat.lt_ge_cases t (length (threads s))) as [Hlt|Hge].
  - specialize (H t ltac:(apply in_seq; lia)).
    now destruct (sys_step s (t, false)).
  - unfold sys_step. cbn [fst]. now rewrite lookup_ge_None_2.
Qed.

Lemma forallb_false_witness {A : Type} (p : A -> bool) (l : list A) :
  forallb p l = false -> exists x, p x = false.
Proof.
  induction l as [|x l IH]; cbn; [discriminate|].
  destruct (p x) eqn:E; [exact IH|]. intros _. now exists x.
Qed.

Lemma not_stuckb_step (s : system) :
  stuckb s = false ->
  exists (t : nat) (s1 : system), sys_step s (t, false) = Some s1.
Proof.
  intros H. apply forallb_false_witness in H as [t Ht].
  destruct (sys_step s (t, false)) as [s1|] eqn:E; [|discriminate].
  now exists t, s1.
Qed.

(** From every state the threads can be run until none can move. *)
Lemma barrier_reaches_stuck (n : Z) (k : nat) :
  forall s : system,
  barrier_inv n s -> tally (steps_left n) (threads s) <= Z.of_nat k ->
  exists (sched : list event) (s' : system),
    no_signal sched /\ run_schedule s sched = Some s' /\ stuck s'.
Proof.
  induction k as [|k IH]; intros s I Hm;
    (destruct (stuckb s) eqn:Sb;
     [exists [], s; split; [constructor|];
      split; [reflexivity|now apply stuckb_stuck]|]);
    apply not_stuckb_step in Sb as (t & s1 & E);
    destruct (barrier_step_inv n s s1 t I E) as [I1 M1].
  - pose proof (inv_parties n s1 I1).
    pose proof (tally_nonneg (steps_left n)
                  (fun pc => steps_left_nonneg n pc ltac:(lia)) (threads s1)).
    lia.
  - destruct (IH s1 I1 ltac:(lia)) as (sched & s' & Q & R & S).
    exists ((t, false) :: sched), s'.
    split; [now constructor|]. cbn [run_schedule]. rewrite E. now split.
Qed.

(* ================================================================== *)
(** * The barrier: main results *)

(** C3 (counterexample). Party size 1 and two callers, one after the
    other, no signal: the first caller is released and leaves the
    arrival counter at 1, not 0; the second caller raises it to 2, posts
    nothing and parks on the turnstile, where no thread can move any
    more. *)
Lemma nm_barrier_second_group_blocks :
  run_schedule (barrier_system 1 2) (quietly [0; 0; 0; 0; 0; 0]%nat)
  = Some {| shared := {| max_threads_count_ := 1;
                         waiting_threads_count_ := 1;
                         mtx_ := {| lock_ := 1 |};
                         turnstile_ := 0 |};
            threads := [Returned; AtLock] |} /\
  run_schedule (barrier_system 1 2)
               (quietly [0; 0; 0; 0; 0; 0; 1; 1; 1]%nat)
  = Some {| shared := {| max_threads_count_ := 1;
                         waiting_threads_count_ := 2;
                         mtx_ := {| lock_ := 1 |};
                         turnstile_ := 0 |};
            threads := [Returned; AtTurnstile] |} /\
  stuck {| shared := {| max_threads_count_ := 1;
                        waiting_threads_count_ := 2;
                        mtx_ := {| lock_ := 1 |};
                        turnstile_ := 0 |};
           threads := [Returned; AtTurnstile] |}.
Proof.
  split; [reflexivity|]. split; [reflexivity|].
  apply stuckb_stuck. reflexivity.
Qed.

(** Which callers get through is up to the scheduler: with party size 2
    and four callers, the two that arrive last can take the two posts
    and leave the two that arrived first parked. *)
Example late_arrivals_take_the_posts :
  run_schedule (barrier_system 2 4)
    (quietly [0; 0; 0; 1; 1; 1; 1; 1; 1; 2; 2; 2; 2; 3; 3; 3; 3]%nat)
  = Some {| shared := {| max_threads_count_ := 2;
                         waiting_threads_count_ := 4;
                         mtx_ := {| lock_ := 1 |};
                         turnstile_ := 0 |};
            threads := [AtTurnstile; AtTurnstile; Returned; Returned] |}.
Proof. reflexivity. Qed.

(** C3 (amended). For a barrier of party size [n >= 1] and any number of
    threads, at least [n], that each call [nm_barrier_wait] once, as long
    as no [sem_wait] is interrupted: the [n]-th arrival posts the
    turnstile [n] times and does not reset the arrival counter.  Under
    every schedule the run is finite and never more than [n] threads have
    returned; once no thread can move, exactly [n] threads have returned
    (all of them when there are [n] callers), every other caller is
    parked on the turnstile, the turnstile is back at 0 and the counter
    equals the number of callers, not 0; and from every state of the run
    such a final state can be reached.  So [n] callers are released,
    whichever take the [n] posts, and the barrier is not reusable. *)
Theorem nm_barrier_single_use (n : Z) (callers : nat) :
  1 <= n <= SEM_VALUE_MAX ->
  n <= Z.of_nat callers < UINT_MODULUS ->
  forall (sched : list event) (s : system),
    no_signal sched ->
    run_schedule (barrier_system n callers) sched = Some s ->
    Z.of_nat (length sched) <= (n + 5) * Z.of_nat callers /\
    tally has_returned (threads s) <= n /\
    (stuck s ->
     tally has_returned (threads s) = n /\
     tally is_parked (threads s) = Z.of_nat callers - n /\
     waiting_threads_count_ (shared s) = Z.of_nat callers /\
     turnstile_ (shared s) = 0) /\
    (exists (sched' : list event) (s' : system),
        no_signal sched' /\ run_schedule s sched' = Some s' /\ stuck s').
Proof.
  intros Hn Hc sched s Q R.
  pose proof (barrier_inv_init n callers Hn ltac:(lia)) as I0.
  destruct (barrier_run_inv n sched Q _ s I0 R) as (I & L & M).
  cbn [barrier_system threads] in L, M.
  rewrite steps_left_initial in M. rewrite length_replicate in L.
  pose proof (tally_nonneg (steps_left n)
                (fun pc => steps_left_nonneg n pc ltac:(lia)) (threads s)).
  split; [lia|]. split; [now apply barrier_inv_returned_le|]. split.
  - intros S.
    destruct (barrier_stuck n s I S ltac:(lia)) as (_ & ? & ? & ? & ? & _).
    rewrite L in *. auto.
  - apply (barrier_reaches_stuck n
             (Z.to_nat (tally (steps_left n) (threads s))));
      [assumption|lia].
Qed.

Lemma nm_barrier_single_use_witness :
  (1 <= 2 <= SEM_VALUE_MAX /\ 2 <= Z.of_nat 3 < UINT_MODULUS) /\
  Z.of_nat (length (quietly
                      [0; 0; 0; 1; 1; 1; 1; 1; 1; 1; 0; 2; 2; 2]%nat))
  <= (2 + 5) * Z.of_nat 3 /\
  tally has_returned [Returned; Returned; AtTurnstile] <= 2 /\
  (stuck {| shared := {| max_threads_count_ := 2;
                         waiting_threads_count_ := 3;
                         mtx_ := {| lock_ := 1 |};
                         turnstile_ := 0 |};
            threads := [Returned; Returned; AtTurnstile] |} ->
   tally has_returned [Returned; Returned; AtTurnstile] = 2 /\
   tally is_parked [Returned; Returned; AtTurnstile] = Z.of_nat 3 - 2 /\
   3 = Z.of_nat 3 /\
   0 = 0) /\
  (exists (sched' : list event) (s' : system),
      no_signal sched' /\
      run_schedule {| shared := {| max_threads_count_ := 2;
                         waiting_threads_count_ := 3;
                         mtx_ := {| lock_ := 1 |};
                         turnstile_ := 0 |};
            threads := [Returned; Returned; AtTurnstile] |} sched' = Some s' /\
      stuck s').
Proof.
  assert (Hn : 1 <= 2 <= SEM_VALUE_MAX) by (split; discriminate).
  assert (Hc : 2 <= Z.of_nat 3 < UINT_MODULUS)
    by (split; [discriminate|reflexivity]).
  split; [now split|].
  apply (nm_barrier_single_use 2 3 Hn Hc
           (quietly [0; 0; 0; 1; 1; 1; 1; 1; 1; 1; 0; 2; 2; 2]%nat)
           {| shared := {| max_threads_count_ := 2;
                         waiting_threads_count_ := 3;
                         mtx_ := {| lock_ := 1 |};
                         turnstile_ := 0 |};
            threads := [Returned; Returned; AtTurnstile] |}).
  - repeat constructor.
  - reflexivity.
Defined.

(** C8 (counterexample). For party size 1 and a caller alone, the first
    call returns and the second call, with no signal to interrupt it,
    parks on the turnstile, whose value is 0 when the caller waits on
    it. *)
Lemma nm_barrier_wait_second_call_blocks :
  nm_barrier_wait false (fresh_barrier 1)
  = WaitReturns {| max_threads_count_ := 1; waiting_threads_count_ := 1;
                   mtx_ := {| lock_ := 1 |}; turnstile_ := 0 |} /\
  nm_barrier_wait false
    {| max_threads_count_ := 1; waiting_threads_count_ := 1;
       mtx_ := {| lock_ := 1 |}; turnstile_ := 0 |}
  = WaitBlocks {| max_threads_count_ := 1; waiting_threads_count_ := 2;
                  mtx_ := {| lock_ := 1 |}; turnstile_ := 0 |} AtTurnstile.
Proof. split; reflexivity. Qed.

(** With party size 1 and two callers whose calls overlap, the second
    caller can take the post the first one made, and it is the first
    caller that stays parked. *)
Example overlapping_call_takes_the_post :
  run_schedule (barrier_system 1 2)
               (quietly [0; 0; 0; 0; 0; 1; 1; 1; 1]%nat)
  = Some {| shared := {| max_threads_count_ := 1;
                         waiting_threads_count_ := 2;
                         mtx_ := {| lock_ := 1 |};
                         turnstile_ := 0 |};
            threads := [AtTurnstile; Returned] |}.
Proof. reflexivity. Qed.

(** C8 (amended). For a barrier initialised with party size 1, the first
    call of [nm_barrier_wait], made by a caller alone (no other call in
    progress), returns without blocking, signals or not: initialisation
    succeeds, the caller reaches its wait on the turnstile with one post
    pending (the one it made itself), and the call returns, leaving the
    turnstile at 0 and the arrival counter at 1. *)
Theorem nm_barrier_wait_party_of_one_first_call (barrier_ : nm_barrier_t)
    (interrupted : bool) :
  nm_barrier_init barrier_ 1 = (0, fresh_barrier 1) /\
  run_schedule (barrier_system 1 1)
               (map (fun t => (t, interrupted)) [0; 0; 0; 0; 0]%nat)
  = Some {| shared := {| max_threads_count_ := 1;
                         waiting_threads_count_ := 1;
                         mtx_ := {| lock_ := 1 |};
                         turnstile_ := 1 |};
            threads := [AtTurnstile] |} /\
  nm_barrier_wait interrupted (snd (nm_barrier_init barrier_ 1))
  = WaitReturns {| max_threads_count_ := 1; waiting_threads_count_ := 1;
                   mtx_ := {| lock_ := 1 |}; turnstile_ := 0 |}.
Proof. destruct interrupted; repeat split; reflexivity. Qed.

(* ================================================================== *)
(** * The queue against a bounded list *)

Lemma contents_count (q : nm_queue) :
  0 <= items_count_ q -> Z.of_nat (length (contents q)) = items_count_ q.
Proof. intros H. rewrite contents_length. lia. Qed.

Lemma contents_nil (q : nm_queue) :
  items_count_ q = 0 -> contents q = [].
Proof. intros H. unfold contents. now rewrite H. Qed.

Section Refinement.

Context {C : Type}.

(** One call on a well-formed queue leaves the items the bounded list
    holds, and answers as the list does unless the call is a visit. *)
Lemma run_call_refines (q : nm_queue) (c : call C) :
  queue_wf q ->
  exists (a : answer C) (q' : nm_queue),
    run_call (Some q) c = Ret (a, Some q') /\
    queue_wf q' /\
    capacity_ q' = capacity_ q /\
    snd (fifo_call (capacity_ q) (contents q) c) = contents q' /\
    (is_for_each c = false ->
     fst (fifo_call (capacity_ q) (contents q) c) = a).
Proof.
  intros W. pose proof (wf_count q W) as Hn.
  pose proof (contents_count q ltac:(lia)) as Hlen.
  destruct c as [item_|[old|]| | |[cb|] ctx];
    cbn [run_call fifo_call is_for_each].
  - (* Enqueue *)
    unfold fifo_enqueue. rewrite Hlen.
    destruct (Z.eqb_spec item_ NULL) as [->|Hi].
    { exists (Enqueued NM_QUEUE_UNINITIALIZED_ERROR), q. now cbn. }
    destruct (Z.eqb_spec (items_count_ q) (capacity_ q)) as [Hc|Hc].
    { exists (Enqueued NM_QUEUE_OVERFLOW_ERROR), q.
      unfold nm_queue_enqueue.
      destruct (Z.eqb_spec item_ NULL); [contradiction|].
      destruct (Z.eqb_spec (capacity_ q) (items_count_ q)); [|congruence].
      now cbn. }
    exists (Enqueued NM_QUEUE_SUCCESS), (after_enqueue q item_).
    rewrite enqueue_success by trivial. cbn [bind fst snd].
    split; [reflexivity|]. split; [now apply after_enqueue_wf|].
    split; [reflexivity|]. now rewrite contents_after_enqueue.
  - (* Dequeue into a cell *)
    destruct (Z.eq_dec (items_count_ q) 0) as [Hc|Hc].
    { exists (Dequeued NM_QUEUE_UNDERFLOW_ERROR (Some old)), q.
      unfold nm_queue_dequeue.
      destruct (Z.eqb_spec (items_count_ q) 0); [|contradiction].
      rewrite (contents_nil q Hc). now cbn. }
    exists (Dequeued NM_QUEUE_SUCCESS (Some (slot q 0))), (after_dequeue q).
    rewrite dequeue_success by trivial. cbn [bind fst snd].
    split; [reflexivity|]. split; [now apply after_dequeue_wf|].
    split; [reflexivity|].
    now rewrite (contents_before_dequeue q W Hc).
  - exists (Dequeued NM_QUEUE_UNINITIALIZED_ERROR None), q. now cbn.
  - exists (Emptiness (nm_queue_is_empty (Some q))), q.
    split; [reflexivity|]. split; [assumption|]. split; [reflexivity|].
    cbn [nm_queue_is_empty fst snd]. split; [reflexivity|]. intros _.
    destruct (Z.eqb_spec (items_count_ q) 0) as [Hc|Hc].
    + now rewrite (contents_nil q Hc).
    + destruct (contents q); [cbn in Hlen; lia|reflexivity].
  - exists (CapacityIs (capacity_ q)), q. now cbn.
  - rewrite for_each_spec by trivial. cbn [bind].
    destruct (visit cb (contents q) ctx) as [[s m] c2].
    eexists _, q. cbn [fst snd].
    split; [reflexivity|]. split; [assumption|]. split; [reflexivity|].
    split; [reflexivity|discriminate].
  - exists (Visited MAX_SIZE_T ctx), q. cbn [fst snd].
    split; [reflexivity|]. split; [assumption|]. split; [reflexivity|].
    split; [reflexivity|discriminate].
Qed.

Lemma run_calls_refines (cs : list (call C)) :
  forall q : nm_queue,
  queue_wf q ->
  exists (rs : list (answer C)) (q' : nm_queue),
    run_calls (Some q) cs = Ret (rs, Some q') /\
    queue_wf q' /\
    capacity_ q' = capacity_ q /\
    snd (fifo_run (capacity_ q) (contents q) cs) = contents q' /\
    (existsb is_for_each cs = false ->
     fst (fifo_run (capacity_ q) (contents q) cs) = rs).
Proof.
  induction cs as [|c cs IH]; intros q W.
  - exists [], q. now cbn.
  - destruct (run_call_refines q c W) as (a & q1 & E1 & W1 & K1 & F1 & A1).
    destruct (IH q1 W1) as (rs & q' & E & W' & K & F & A).
    exists (a :: rs), q'. cbn [run_calls fifo_run existsb].
    rewrite E1. cbn [bind snd fst]. rewrite E. cbn [bind snd fst].
    split; [reflexivity|]. split; [assumption|]. split; [congruence|].
    rewrite K1 in F, A.
    destruct (fifo_call (capacity_ q) (contents q) c) as [a0 l1].
    cbn [fst snd] in F1, A1. subst l1.
    destruct (fifo_run (capacity_ q) (contents q1) cs) as [rs0 l2].
    cbn [fst snd] in *. split; [assumption|].
    intros Hno. apply orb_false_iff in Hno as [Hc Hcs].
    now rewrite (A1 Hc), (A Hcs).
Qed.

End Refinement.

(** ** The list model on runs of enqueues and dequeues *)

Lemma fifo_run_app {C : Type} (capacity : Z) (cs1 cs2 : list (call C)) :
  forall l : list ptr,
  fifo_run capacity l (cs1 ++ cs2)
  = (fst (fifo_run capacity l cs1)
       ++ fst (fifo_run capacity (snd (fifo_run capacity l cs1)) cs2),
     snd (fifo_run capacity (snd (fifo_run capacity l cs1)) cs2)).
Proof.
  induction cs1 as [|c cs1 IH]; intros l; cbn [app fifo_run fst snd].
  - now destruct (fifo_run capacity l cs2).
  - destruct (fifo_call capacity l c) as [a l1]. rewrite IH.
    destruct (fifo_run capacity l1 cs1) as [r1 l2]. cbn [fst snd].
    now destruct (fifo_run capacity l2 cs2).
Qed.

Lemma fifo_run_enqueues {C : Type} (capacity : Z) (xs : list ptr) :
  forall l : list ptr,
  Forall (fun x => x <> NULL) xs ->
  Z.of_nat (length l) + Z.of_nat (length xs) <= capacity ->
  fifo_run (C := C) capacity l (map Enqueue xs)
  = (map (fun _ => Enqueued NM_QUEUE_SUCCESS) xs, l ++ xs).
Proof.
  induction xs as [|x xs IH]; intros l Hx Hlen; cbn [map fifo_run].
  - now rewrite app_nil_r.
  - inversion Hx as [|? ? Hx1 Hx2]; subst. cbn [length] in Hlen.
    cbn [fifo_call]. unfold fifo_enqueue.
    destruct (Z.eqb_spec x NULL); [contradiction|].
    destruct (Z.eqb_spec (Z.of_nat (length l)) capacity); [lia|].
    rewrite IH; trivial.
    + now rewrite <- app_assoc.
    + rewrite length_app. cbn [length]. lia.
Qed.

Lemma fifo_run_dequeues {C : Type} (capacity : Z) (xs : list ptr) :
  forall cells l : list ptr,
  length cells = length xs ->
  fifo_run (C := C) capacity (xs ++ l)
           (map (fun old => Dequeue (Some old)) cells)
  = (map (fun x => Dequeued NM_QUEUE_SUCCESS (Some x)) xs, l).
Proof.
  induction xs as [|x xs IH]; intros [|old cells] l Hlen;
    try discriminate Hlen; cbn [map fifo_run app]; [reflexivity|].
  cbn [fifo_call fifo_dequeue]. rewrite IH; [reflexivity|].
  cbn [length] in Hlen. congruence.
Qed.

(** ** What a pass of the callback amounts to *)

Section VisitProofs.

Context {C : Type}.

Lemma visit_goes_on (callback_ : action_callback C) (l : list ptr) :
  forall context_ : C,
  goes_on callback_ l context_ = true ->
  visit callback_ l context_
  = (false, length l, context_after callback_ l context_).
Proof.
  unfold context_after.
  induction l as [|x l IH]; intros c Hgo;
    cbn [visit fold_left length goes_on] in *; [reflexivity|].
  apply andb_true_iff in Hgo as [Hx Hl].
  destruct (callback_ x c) as [r c1]. cbn [fst snd] in *.
  destruct (r =? 0); [discriminate|]. now rewrite IH.
Qed.

Lemma visit_stops_after (callback_ : action_callback C)
    (pre post : list ptr) (x : ptr) :
  forall context_ : C,
  goes_on callback_ pre context_ = true ->
  fst (callback_ x (context_after callback_ pre context_)) = 0 ->
  visit callback_ (pre ++ x :: post) context_
  = (true, S (length pre),
     snd (callback_ x (context_after callback_ pre context_))).
Proof.
  unfold context_after.
  induction pre as [|y pre IH]; intros c Hgo Hstop;
    cbn [visit fold_left length app goes_on] in *.
  - destruct (callback_ x c) as [r c1]. cbn [fst snd] in *.
    now rewrite Hstop.
  - apply andb_true_iff in Hgo as [Hy Hl].
    destruct (callback_ y c) as [r c1]. cbn [fst snd] in *.
    destruct (r =? 0); [discriminate|]. now rewrite IH.
Qed.

(** A visitor that leaves the queue alone sees what a callback without
    access to the queue sees. *)
Lemma for_each_loop_shared_alone (v : queue_visitor C) (q : nm_queue)
    (queue_capacity : Z) :
  leaves_queue_alone v ->
  forall (fuel : nat) (items_left item_idx : Z) (context_ : C),
  for_each_loop_shared fuel queue_capacity v items_left item_idx q context_
  = do r <- for_each_loop fuel (items_ q) queue_capacity (seen_from v q)
                          items_left item_idx context_;
    Ret (fst r, q, snd r).
Proof.
  intros Hv. induction fuel as [|fuel IH]; intros il idx c;
    cbn [for_each_loop_shared for_each_loop bind]; [reflexivity|].
  destruct (0 <? il); [|reflexivity].
  destruct (load (items_ q) idx) as [x| |]; cbn [bind]; try reflexivity.
  unfold seen_from at 1. pose proof (Hv x q c) as Hq.
  destruct (v x q c) as [[r q1] c1]. cbn [fst snd] in *. subst q1.
  destruct (r =? 0); [reflexivity|].
  destruct (umod (wrap_size_t (idx + 1)) queue_capacity) as [i| |];
    cbn [bind]; try reflexivity.
  apply IH.
Qed.

Lemma for_each_shared_alone (v : queue_visitor C) (q : nm_queue)
    (context_ : C) :
  leaves_queue_alone v ->
  nm_queue_for_each_shared (Some q) (Some v) context_
  = do r <- nm_queue_for_each (Some q) (Some (seen_from v q)) context_;
    Ret (fst r, Some q, snd r).
Proof.
  intros Hv. unfold nm_queue_for_each_shared, nm_queue_for_each.
  rewrite for_each_loop_shared_alone by assumption.
  destruct (for_each_loop _ _ _ _ _ _ _) as [[il c]| |]; reflexivity.
Qed.

End VisitProofs.

(** ** The loop of [nm_queue_destroy] *)

Section DestroyProofs.

Context {W : Type}.

Lemma destroy_loop_spec (q : nm_queue) (callback_ : destroy_item_callback W)
    (n : nat) :
  queue_wf q ->
  forall (fuel : nat) (k : Z) (w : W),
  (n < fuel)%nat -> 0 <= k -> k + Z.of_nat n <= capacity_ q ->
  destroy_loop fuel (items_ q) (capacity_ q) callback_
               (Z.of_nat n) (slot_index q k) w
  = Ret (fold_left (fun w x => callback_ x w) (slots_from q k n) w).
Proof.
  intros Wf.
  pose proof (wf_capacity q Wf) as Hcap. pose proof (wf_length q Wf) as Hl.
  induction n as [|n IH]; intros fuel k w Hf Hk Hn;
    (destruct fuel as [|fuel]; [lia|]).
  - reflexivity.
  - pose proof (slot_index_range q k ltac:(lia)) as Hr.
    rewrite slots_from_cons. cbn [destroy_loop fold_left].
    destruct (Z.ltb_spec 0 (Z.of_nat (S n))); [|lia].
    rewrite load_in_range by lia. cbn [bind]. fold (slot q k).
    replace (wrap_size_t (Z.of_nat (S n) - 1)) with (Z.of_nat n)
      by (rewrite wrap_size_t_small; lia).
    rewrite wrap_size_t_small by lia.
    rewrite umod_nonzero by lia. cbn [bind].
    replace ((slot_index q k + 1) mod capacity_ q)
      with (slot_index q (k + 1)).
    2:{ unfold slot_index. rewrite Z.add_mod_idemp_l by lia.
        f_equal. lia. }
    now rewrite IH by lia.
Qed.

Lemma destroy_spec (q : nm_queue) (callback_ : destroy_item_callback W)
    (w : W) :
  queue_wf q ->
  nm_queue_destroy (Some (Some q)) (Some callback_) w
  = Ret (Some None, fold_left (fun w x => callback_ x w) (contents q) w).
Proof.
  intros Wf.
  pose proof (wf_capacity q Wf) as Hcap. pose proof (wf_count q Wf) as Hn.
  pose proof (wf_head q Wf) as Hh.
  unfold nm_queue_destroy.
  replace (head_ q) with (slot_index q 0) at 1.
  2:{ unfold slot_index. rewrite Z.add_0_r, Z.mod_small; lia. }
  rewrite <- (Z2Nat.id (items_count_ q)) at 2 by lia.
  rewrite destroy_loop_spec by (trivial; lia).
  now rewrite slots_from_head.
Qed.

End DestroyProofs.

(* ================================================================== *)
(** * The queue: further results *)

Lemma sample_two_items_wf : queue_wf sample_two_items.
Proof.
  constructor; try reflexivity;
    unfold MAX_SIZE_T, SIZE_T_MODULUS, SIZE_T_BITS; cbn; lia.
Defined.

(** X1. On a valid handle to a queue that is not full, a successful
    [nm_queue_enqueue] of a non-[NULL] item makes it the last of the
    buffered items (read from [head_], wrapping) and leaves the others
    as they were, in order. *)
Theorem nm_queue_enqueue_appends (q : nm_queue) (item_ : ptr) :
  queue_wf q -> item_ <> NULL -> items_count_ q <> capacity_ q ->
  exists q' : nm_queue,
    nm_queue_enqueue (Some q) item_ = Ret (NM_QUEUE_SUCCESS, Some q') /\
    contents q' = contents q ++ [item_] /\
    queue_wf q'.
Proof.
  intros W Hi Hc. exists (after_enqueue q item_).
  split; [now apply enqueue_success|].
  split; [now apply contents_after_enqueue|now apply after_enqueue_wf].
Qed.

Lemma nm_queue_enqueue_appends_witness :
  exists q' : nm_queue,
    nm_queue_enqueue (Some sample_queue) 8 = Ret (NM_QUEUE_SUCCESS, Some q') /\
    contents q' = contents sample_queue ++ [8] /\
    queue_wf q'.
Proof.
  apply (nm_queue_enqueue_appends sample_queue 8 sample_queue_wf);
    discriminate.
Defined.

(** X2. On a valid handle, [nm_queue_dequeue] with a [NULL] output
    pointer returns [NM_QUEUE_UNINITIALIZED_ERROR]; with a valid one it
    returns [NM_QUEUE_UNDERFLOW_ERROR] when no item is buffered, leaving
    queue and cell as they were, and otherwise stores the oldest buffered
    item in the cell and leaves the remaining items buffered, in order. *)
Theorem nm_queue_dequeue_cases (q : nm_queue) :
  queue_wf q ->
  nm_queue_dequeue (Some q) None
  = Ret (NM_QUEUE_UNINITIALIZED_ERROR, Some q, None) /\
  (forall old : ptr,
      contents q = [] ->
      nm_queue_dequeue (Some q) (Some old)
      = Ret (NM_QUEUE_UNDERFLOW_ERROR, Some q, Some old)) /\
  (forall (old x : ptr) (rest : list ptr),
      contents q = x :: rest ->
      exists q' : nm_queue,
        nm_queue_dequeue (Some q) (Some old)
        = Ret (NM_QUEUE_SUCCESS, Some q', Some x) /\
        contents q' = rest /\
        queue_wf q').
Proof.
  intros W. pose proof (wf_count q W) as Hn.
  pose proof (contents_count q ltac:(lia)) as Hlen.
  split; [reflexivity|]. split.
  - intros old E. rewrite E in Hlen. cbn in Hlen.
    unfold nm_queue_dequeue.
    destruct (Z.eqb_spec (items_count_ q) 0); [reflexivity|lia].
  - intros old x rest E.
    assert (Hc : items_count_ q <> 0) by (rewrite E in Hlen; cbn in Hlen; lia).
    rewrite (contents_before_dequeue q W Hc) in E. injection E as Ex Er.
    exists (after_dequeue q). rewrite dequeue_success by trivial.
    rewrite Ex. split; [reflexivity|].
    split; [assumption|now apply after_dequeue_wf].
Qed.

Lemma nm_queue_dequeue_cases_witness :
  nm_queue_dequeue (Some sample_two_items) None
  = Ret (NM_QUEUE_UNINITIALIZED_ERROR, Some sample_two_items, None) /\
  (forall old : ptr,
      contents sample_two_items = [] ->
      nm_queue_dequeue (Some sample_two_items) (Some old)
      = Ret (NM_QUEUE_UNDERFLOW_ERROR, Some sample_two_items, Some old)) /\
  (forall (old x : ptr) (rest : list ptr),
      contents sample_two_items = x :: rest ->
      exists q' : nm_queue,
        nm_queue_dequeue (Some sample_two_items) (Some old)
        = Ret (NM_QUEUE_SUCCESS, Some q', Some x) /\
        contents q' = rest /\
        queue_wf q').
Proof.
  exact (nm_queue_dequeue_cases sample_two_items sample_two_items_wf).
Defined.

(** X3. From [nm_queue_create], every sequence of calls of
    [nm_queue_enqueue], [nm_queue_dequeue], [nm_queue_is_empty] and
    [nm_queue_capacity], failing calls included, runs to completion and
    gives call by call the answers of a list bounded by the capacity
    (append at the end unless [NULL] or full, take the first unless
    empty or without a cell, emptiness, capacity); the items buffered at
    the end are those the list holds. *)
Theorem nm_queue_answers_as_bounded_list (C : Type) (n : Z)
    (malloc_ok calloc_ok : bool) (q : nm_queue) (cs : list (call C)) :
  0 < n <= MAX_SIZE_T ->
  nm_queue_create malloc_ok calloc_ok n = Some q ->
  existsb is_for_each cs = false ->
  exists (rs : list (answer C)) (q' : nm_queue),
    run_calls (Some q) cs = Ret (rs, Some q') /\
    fifo_run n [] cs = (rs, contents q').
Proof.
  intros Hn Hc Hno.
  assert (Hn' : 0 <= n <= MAX_SIZE_T) by lia.
  destruct (create_wf _ _ _ _ Hn' Hc) as (W & K & _).
  destruct (run_calls_refines cs q W) as (rs & q' & E & _ & _ & F & A).
  exists rs, q'. split; [assumption|].
  rewrite K, (contents_create _ _ _ _ Hc) in F, A.
  specialize (A Hno).
  destruct (fifo_run n [] cs) as [rs0 l]. cbn [fst snd] in *. congruence.
Qed.

Lemma nm_queue_answers_as_bounded_list_witness :
  exists (rs : list (answer unit)) (q' : nm_queue),
    run_calls (Some {| items_ := [NULL; NULL]; capacity_ := 2; head_ := 0;
                       tail_ := 0; items_count_ := 0 |})
              sample_plain_calls
    = Ret (rs, Some q') /\
    fifo_run 2 [] sample_plain_calls = (rs, contents q').
Proof.
  apply (nm_queue_answers_as_bounded_list unit 2 true true).
  - exact sample_capacity_in_range.
  - reflexivity.
  - reflexivity.
Defined.

(** X4. A queue created with capacity [n] takes exactly [n] items: the
    enqueues of [n] non-[NULL] items all succeed, one more enqueue
    returns [NM_QUEUE_OVERFLOW_ERROR], [n] dequeues then hand the items
    back in the order they were given, whatever the caller's cells held
    before, and one more dequeue returns [NM_QUEUE_UNDERFLOW_ERROR] and
    leaves the caller's cell holding what it held, whatever that is. *)
Theorem nm_queue_fill_then_drain (n : Z) (malloc_ok calloc_ok : bool)
    (q : nm_queue) (xs cells : list ptr) (y old : ptr) :
  0 < n <= MAX_SIZE_T ->
  nm_queue_create malloc_ok calloc_ok n = Some q ->
  Forall (fun x => x <> NULL) xs ->
  Z.of_nat (length xs) = n ->
  length cells = length xs ->
  y <> NULL ->
  exists q' : nm_queue,
    run_calls (C := unit) (Some q)
      (map Enqueue xs ++ [Enqueue y]
       ++ map (fun cell => Dequeue (Some cell)) cells
       ++ [Dequeue (Some old)])
    = Ret (map (fun _ => Enqueued NM_QUEUE_SUCCESS) xs
           ++ [Enqueued NM_QUEUE_OVERFLOW_ERROR]
           ++ map (fun x => Dequeued NM_QUEUE_SUCCESS (Some x)) xs
           ++ [Dequeued NM_QUEUE_UNDERFLOW_ERROR (Some old)],
           Some q') /\
    contents q' = [].
Proof.
  intros Hn Hc Hxs Hlen Hcells Hy.
  assert (Hn' : 0 <= n <= MAX_SIZE_T) by lia.
  destruct (create_wf _ _ _ _ Hn' Hc) as (W & K & _).
  destruct (run_calls_refines (C := unit)
              (map Enqueue xs ++ [Enqueue y]
               ++ map (fun cell => Dequeue (Some cell)) cells
               ++ [Dequeue (Some old)]) q W)
    as (rs & q' & E & _ & _ & F & A).
  assert (Hno : existsb (is_for_each (C := unit))
                  (map Enqueue xs ++ [Enqueue y]
                   ++ map (fun cell => Dequeue (Some cell)) cells
                   ++ [Dequeue (Some old)]) = false).
  { rewrite !existsb_app. cbn [existsb is_for_each orb].
    assert (H1 : existsb (is_for_each (C := unit)) (map Enqueue xs) = false)
      by (clear; induction xs; [reflexivity|assumption]).
    assert (H2 : existsb (is_for_each (C := unit))
                   (map (fun cell => Dequeue (Some cell)) cells) = false)
      by (clear; induction cells; [reflexivity|assumption]).
    now rewrite H1, H2. }
  specialize (A Hno).
  rewrite K, (contents_create _ _ _ _ Hc) in F, A.
  rewrite fifo_run_app, fifo_run_enqueues in F, A by (trivial; cbn; lia).
  cbn [fst snd app] in F, A. cbn [fifo_run fifo_call] in F, A.
  unfold fifo_enqueue in F, A.
  destruct (Z.eqb_spec y NULL); [contradiction|].
  destruct (Z.eqb_spec (Z.of_nat (length xs)) n); [|contradiction].
  rewrite fifo_run_app in F, A.
  pose proof (fifo_run_dequeues (C := unit) n xs cells [] Hcells) as D.
  rewrite app_nil_r in D. rewrite D in F, A. cbn in F, A.
  exists q'. split; [|now symmetry]. rewrite E. now rewrite <- A.
Qed.

Lemma nm_queue_fill_then_drain_witness :
  exists q' : nm_queue,
    run_calls (C := unit)
      (Some {| items_ := [NULL; NULL]; capacity_ := 2; head_ := 0;
               tail_ := 0; items_count_ := 0 |})
      (map Enqueue [7; 8] ++ [Enqueue 9]
       ++ map (fun cell => Dequeue (Some cell)) [100; 7]
       ++ [Dequeue (Some 8)])
    = Ret (map (fun _ => Enqueued NM_QUEUE_SUCCESS) [7; 8]
           ++ [Enqueued NM_QUEUE_OVERFLOW_ERROR]
           ++ map (fun x => Dequeued NM_QUEUE_SUCCESS (Some x)) [7; 8]
           ++ [Dequeued NM_QUEUE_UNDERFLOW_ERROR (Some 8)],
           Some q') /\
    contents q' = [].
Proof.
  apply (nm_queue_fill_then_drain 2 true true).
  - exact sample_capacity_in_range.
  - reflexivity.
  - repeat constructor; discriminate.
  - reflexivity.
  - reflexivity.
  - discriminate.
Defined.

(** A callback that takes items off the queue during the pass changes
    the result: on a full queue of three items, a callback that dequeues
    once per call and never answers 0 is called three times, and
    [nm_queue_for_each] returns 1, the emptied queue's count minus the
    wrapped-around [items_left]. *)
Example visitor_that_dequeues :
  goes_on (seen_from dequeue_while_visiting sample_three_items)
          (contents sample_three_items) [] = true /\
  nm_queue_for_each_shared (Some sample_three_items)
                           (Some dequeue_while_visiting) []
  = Ret (1,
         Some {| items_ := [NULL; NULL; NULL]; capacity_ := 3; head_ := 0;
                 tail_ := 0; items_count_ := 0 |},
         [7; 8; 9]).
Proof. split; reflexivity. Qed.

(** X5. On a valid handle, with a callback that leaves the queue as it
    is and answers non-zero at every buffered item (each shown with the
    context the item before left), [nm_queue_for_each] calls it once on
    every buffered item, oldest first, threading the context through,
    leaves the queue as it was and returns the item count plus one
    (reduced modulo 2^64). *)
Theorem nm_queue_for_each_full_pass (C : Type) (q : nm_queue)
    (callback_ : queue_visitor C) (context_ : C) :
  queue_wf q ->
  leaves_queue_alone callback_ ->
  goes_on (seen_from callback_ q) (contents q) context_ = true ->
  nm_queue_for_each_shared (Some q) (Some callback_) context_
  = Ret (wrap_size_t (items_count_ q + 1), Some q,
         context_after (seen_from callback_ q) (contents q) context_).
Proof.
  intros W Hv Hgo. rewrite for_each_shared_alone by assumption.
  rewrite for_each_spec by trivial.
  now rewrite visit_goes_on.
Qed.

Lemma nm_queue_for_each_full_pass_witness :
  nm_queue_for_each_shared (Some sample_two_items) (Some watch_all) []
  = Ret (wrap_size_t (items_count_ sample_two_items + 1),
         Some sample_two_items,
         context_after (seen_from watch_all sample_two_items)
                       (contents sample_two_items) []).
Proof.
  apply (nm_queue_for_each_full_pass (list ptr) sample_two_items watch_all []
           sample_two_items_wf).
  - intros x q c. reflexivity.
  - reflexivity.
Defined.

(** X6. On a valid handle, with a callback that leaves the queue as it
    is, answers non-zero at the buffered items [pre] and 0 at the next
    one, [x] (each shown with the context the item before left),
    [nm_queue_for_each] calls it on the items up to and including [x],
    oldest first, on no later item, leaves the queue as it was and
    returns the number of calls made. *)
Theorem nm_queue_for_each_early_stop (C : Type) (q : nm_queue)
    (callback_ : queue_visitor C) (context_ : C)
    (pre post : list ptr) (x : ptr) :
  queue_wf q ->
  leaves_queue_alone callback_ ->
  contents q = pre ++ x :: post ->
  goes_on (seen_from callback_ q) pre context_ = true ->
  fst (seen_from callback_ q x
         (context_after (seen_from callback_ q) pre context_)) = 0 ->
  nm_queue_for_each_shared (Some q) (Some callback_) context_
  = Ret (Z.of_nat (length pre) + 1, Some q,
         snd (seen_from callback_ q x
                (context_after (seen_from callback_ q) pre context_))).
Proof.
  intros W Hv E Hgo Hstop. rewrite for_each_shared_alone by assumption.
  rewrite for_each_spec by trivial.
  rewrite E, visit_stops_after by assumption.
  cbn [bind fst snd]. do 3 f_equal. lia.
Qed.

Lemma nm_queue_for_each_early_stop_witness :
  nm_queue_for_each_shared (Some sample_three_items) (Some stop_at_second) []
  = Ret (Z.of_nat (length [7]) + 1, Some sample_three_items,
         snd (seen_from stop_at_second sample_three_items 8
                (context_after (seen_from stop_at_second sample_three_items)
                               [7] []))).
Proof.
  apply (nm_queue_for_each_early_stop (list ptr) sample_three_items
           stop_at_second [] [7] [9] 8).
  - constructor; try reflexivity;
      unfold MAX_SIZE_T, SIZE_T_MODULUS, SIZE_T_BITS; cbn; lia.
  - intros x q c. reflexivity.
  - reflexivity.
  - reflexivity.
  - reflexivity.
Defined.

(** X7. [nm_queue_destroy] on a handle to a valid queue with an element
    destructor calls the destructor once on every buffered item, oldest
    first, and on nothing else (no empty slot), then frees the queue and
    sets the caller's handle to [NULL]. *)
Theorem nm_queue_destroy_releases_buffered (W : Type) (q : nm_queue)
    (callback_ : destroy_item_callback W) (w : W) :
  queue_wf q ->
  nm_queue_destroy (Some (Some q)) (Some callback_) w
  = Ret (Some None, fold_left (fun w x => callback_ x w) (contents q) w).
Proof. intros Wf. now apply destroy_spec. Qed.

Lemma nm_queue_destroy_releases_buffered_witness :
  nm_queue_destroy (Some (Some sample_two_items)) (Some record_destroyed) []
  = Ret (Some None,
         fold_left (fun w x => record_destroyed x w)
                   (contents sample_two_items) []).
Proof.
  exact (nm_queue_destroy_releases_buffered (list ptr) sample_two_items
           record_destroyed [] sample_two_items_wf).
Defined.

(** X8. Destroying twice is harmless: after a call of
    [nm_queue_destroy] that has returned, a second call through the same
    handle pointer, with any destructor, calls nothing, frees nothing and
    leaves handle and heap as they are. *)
Theorem nm_queue_destroy_twice (W : Type) (queue_ h : option (option nm_queue))
    (callback_ callback2_ : option (destroy_item_callback W)) (w w1 : W) :
  nm_queue_destroy queue_ callback_ w = Ret (h, w1) ->
  nm_queue_destroy h callback2_ w1 = Ret (h, w1).
Proof.
  unfold nm_queue_destroy at 1. intros E.
  destruct queue_ as [[q|]|].
  - destruct callback_ as [cb|]; cbn [bind] in E.
    + destruct (destroy_loop _ _ _ _ _ _ _) as [w2| |]; cbn [bind] in E;
        try discriminate.
      now injection E as <- <-.
    + now injection E as <- <-.
  - now injection E as <- <-.
  - now injection E as <- <-.
Qed.

Lemma nm_queue_destroy_twice_witness :
  nm_queue_destroy (Some None) None [7; 8] = Ret (Some None, [7; 8]).
Proof.
  apply (nm_queue_destroy_twice (list ptr) (Some (Some sample_two_items))
           (Some None) (Some record_destroyed) None [] [7; 8]).
  reflexivity.
Defined.

(* ================================================================== *)
(** * Mutex and barrier: further results *)

(** In a state where no thread can move, every thread waits on the
    turnstile or has returned. *)
Lemma stuck_threads_wait (n : Z) (s : system) :
  barrier_inv n s -> stuck s ->
  forall (t : nat) (pc : barrier_pc),
    threads s !! t = Some pc -> pc = AtTurnstile \/ pc = Returned.
Proof.
  intros I S. destruct s as [b l]. cbn [threads shared] in *.
  assert (Sat : forall t pc, l !! t = Some pc ->
                             nm_barrier_wait_step false b pc = None).
  { intros t pc Ht. specialize (S t). unfold sys_step in S.
    cbn [threads shared fst snd] in S. rewrite Ht in S.
    destruct (nm_barrier_wait_step false b pc) as [[b' pc']|];
      [discriminate|].
    reflexivity. }
  destruct (inv_lock n _ I) as [Hl0 Hl]. cbn [threads shared] in *.
  assert (Hcrit : tally in_critical l = 0).
  { rewrite (tally_const _ _ 0); [lia|]. intros t pc Ht.
    specialize (Sat t pc Ht). destruct pc; cbn in *; try reflexivity;
      try discriminate.
    destruct (_ =? _); discriminate.
    destruct (_ <? _); discriminate. }
  intros t pc Ht. pose proof (Sat t pc Ht) as St.
  destruct pc; cbn in St; auto; try discriminate.
  - unfold nm_mutex_lock, sem_wait in St.
    destruct (Z.ltb_spec 0 (lock_ (mtx_ b))); [discriminate|lia].
  - destruct (_ =? _); discriminate.
  - destruct (_ <? _); discriminate.
Qed.

Lemma barrier_inv_turnstile_le (n : Z) (s : system) :
  barrier_inv n s -> turnstile_ (shared s) <= n.
Proof.
  intros I. pose proof (inv_parties n s I).
  pose proof (tally_nonneg has_returned has_returned_nonneg (threads s)).
  destruct (poster_or_none (threads s)) as [(t & i & m & Hp)|Hp].
  - destruct (inv_posting n s I t i m Hp) as (_ & ? & _ & ?). lia.
  - pose proof (inv_released n s I Hp) as E.
    destruct (n <=? waiting_threads_count_ (shared s)); lia.
Qed.

Lemma barrier_inv_released_after (n : Z) (s : system) :
  barrier_inv n s ->
  0 < tally has_returned (threads s) ->
  n <= tally has_arrived (threads s).
Proof.
  intros I Hr. pose proof (inv_turnstile n s I).
  rewrite <- (inv_count n s I).
  destruct (poster_or_none (threads s)) as [(t & i & m & Hp)|Hp].
  - destruct (inv_posting n s I t i m Hp) as (_ & _ & ? & _). lia.
  - pose proof (inv_released n s I Hp) as E.
    destruct (Z.leb_spec n (waiting_threads_count_ (shared s))); lia.
Qed.

(** X9. As long as no [sem_wait] is interrupted, callers of
    [nm_barrier_wait] exclude each other between [nm_mutex_lock] and
    [nm_mutex_unlock]: under every schedule, at most one thread is
    between the two, the lock's value is 1 exactly when none is, the
    arrival counter equals the number of threads that have gone past the
    increment (no update is lost), and the turnstile's value stays
    between 0 and the party size. *)
Theorem nm_barrier_mutual_exclusion (n : Z) (callers : nat)
    (sched : list event) (s : system) :
  1 <= n <= SEM_VALUE_MAX ->
  Z.of_nat callers < UINT_MODULUS ->
  no_signal sched ->
  run_schedule (barrier_system n callers) sched = Some s ->
  (forall (t1 t2 : nat) (pc1 pc2 : barrier_pc),
      t1 <> t2 ->
      threads s !! t1 = Some pc1 -> threads s !! t2 = Some pc2 ->
      in_critical pc1 = 1 -> in_critical pc2 = 0) /\
  lock_ (mtx_ (shared s)) = 1 - tally in_critical (threads s) /\
  0 <= tally in_critical (threads s) <= 1 /\
  waiting_threads_count_ (shared s) = tally has_arrived (threads s) /\
  0 <= turnstile_ (shared s) <= n.
Proof.
  intros Hn Hc Q R.
  pose proof (barrier_inv_init n callers Hn Hc) as I0.
  destruct (barrier_run_inv n sched Q _ s I0 R) as (I & _ & _).
  destruct (inv_lock n s I) as [Hl0 Hl].
  pose proof (tally_nonneg in_critical in_critical_nonneg (threads s)).
  split.
  - intros t1 t2 pc1 pc2 Hne H1 H2 Hc1.
    apply (critical_alone n s t1 t2 pc1 pc2 I H1 Hc1); congruence.
  - split; [lia|]. split; [lia|]. split; [apply (inv_count n s I)|].
    split; [apply (inv_turnstile n s I)|now apply barrier_inv_turnstile_le].
Qed.

Lemma nm_barrier_mutual_exclusion_witness :
  (forall (t1 t2 : nat) (pc1 pc2 : barrier_pc),
      t1 <> t2 ->
      [AtPost 1 2; AtTurnstile; AtLock] !! t1 = Some pc1 ->
      [AtPost 1 2; AtTurnstile; AtLock] !! t2 = Some pc2 ->
      in_critical pc1 = 1 -> in_critical pc2 = 0) /\
  0 = 1 - tally in_critical [AtPost 1 2; AtTurnstile; AtLock] /\
  0 <= tally in_critical [AtPost 1 2; AtTurnstile; AtLock] <= 1 /\
  2 = tally has_arrived [AtPost 1 2; AtTurnstile; AtLock] /\
  0 <= 1 <= 2.
Proof.
  apply (nm_barrier_mutual_exclusion 2 3
           (quietly [1; 1; 1; 0; 0; 0]%nat)
           {| shared := {| max_threads_count_ := 2;
                           waiting_threads_count_ := 2;
                           mtx_ := {| lock_ := 0 |};
                           turnstile_ := 1 |};
              threads := [AtPost 1 2; AtTurnstile; AtLock] |}).
  - split; discriminate.
  - reflexivity.
  - repeat constructor.
  - reflexivity.
Defined.

(** X10. As long as no [sem_wait] is interrupted, [nm_barrier_wait]
    lets no caller through early: under every schedule, a thread has
    returned only if at least as many threads as the party size have
    arrived.  With fewer callers than the party size no thread returns,
    and once no thread can move every caller is parked on the
    turnstile. *)
Theorem nm_barrier_no_early_release (n : Z) (callers : nat)
    (sched : list event) (s : system) :
  1 <= n <= SEM_VALUE_MAX ->
  Z.of_nat callers < UINT_MODULUS ->
  no_signal sched ->
  run_schedule (barrier_system n callers) sched = Some s ->
  (0 < tally has_returned (threads s) ->
   n <= tally has_arrived (threads s)) /\
  (Z.of_nat callers < n ->
   tally has_returned (threads s) = 0 /\
   (stuck s -> tally is_parked (threads s) = Z.of_nat callers)).
Proof.
  intros Hn Hc Q R.
  pose proof (barrier_inv_init n callers Hn Hc) as I0.
  destruct (barrier_run_inv n sched Q _ s I0 R) as (I & L & _).
  cbn [barrier_system threads] in L. rewrite length_replicate in L.
  pose proof (barrier_inv_released_after n s I) as Hrel.
  split; [assumption|]. intros Hfew.
  pose proof (tally_nonneg has_returned has_returned_nonneg (threads s)).
  pose proof (tally_le_length has_arrived (threads s) has_arrived_le_1).
  assert (Hz : tally has_returned (threads s) = 0) by lia.
  split; [assumption|]. intros S.
  pose proof (stuck_threads_wait n s I S) as Hpcs.
  assert (Hsum : tally is_parked (threads s) + tally has_returned (threads s)
                 = Z.of_nat (length (threads s))).
  { rewrite <- tally_plus. rewrite (tally_const _ _ 1); [lia|].
    intros t pc Ht. destruct (Hpcs t pc Ht) as [-> | ->]; reflexivity. }
  lia.
Qed.

Lemma nm_barrier_no_early_release_witness :
  (0 < tally has_returned [AtTurnstile; AtTurnstile] ->
   3 <= tally has_arrived [AtTurnstile; AtTurnstile]) /\
  (Z.of_nat 2 < 3 ->
   tally has_returned [AtTurnstile; AtTurnstile] = 0 /\
   (stuck {| shared := {| max_threads_count_ := 3;
                          waiting_threads_count_ := 2;
                          mtx_ := {| lock_ := 1 |};
                          turnstile_ := 0 |};
             threads := [AtTurnstile; AtTurnstile] |} ->
    tally is_parked [AtTurnstile; AtTurnstile] = Z.of_nat 2)).
Proof.
  apply (nm_barrier_no_early_release 3 2
           (quietly [0; 0; 0; 1; 1; 1]%nat)
           {| shared := {| max_threads_count_ := 3;
                           waiting_threads_count_ := 2;
                           mtx_ := {| lock_ := 1 |};
                           turnstile_ := 0 |};
              threads := [AtTurnstile; AtTurnstile] |}).
  - split; discriminate.
  - reflexivity.
  - repeat constructor.
  - reflexivity.
Defined.

(** X11. The mutex is a counting semaphore that is not capped at 1:
    on a mutex whose value is positive [nm_mutex_lock] goes through and
    [nm_mutex_unlock] after it restores the value, but [nm_mutex_unlock]
    on a mutex that is not held raises the value, after which two calls
    of [nm_mutex_lock] go through with no unlock between them.  Signals
    play no part: none of these calls blocks. *)
Theorem nm_mutex_unlock_not_capped (mtx_ : nm_mutex_t) (i1 i2 i3 : bool) :
  1 <= lock_ mtx_ < SEM_VALUE_MAX ->
  (exists held : nm_mutex_t,
      nm_mutex_lock i1 mtx_ = Some held /\ nm_mutex_unlock held = mtx_) /\
  (exists m1 m2 : nm_mutex_t,
      nm_mutex_lock i2 (nm_mutex_unlock mtx_) = Some m1 /\
      nm_mutex_lock i3 m1 = Some m2 /\
      lock_ m2 = lock_ mtx_ - 1).
Proof.
  intros H. destruct mtx_ as [v]. cbn [lock_] in H.
  unfold nm_mutex_lock, nm_mutex_unlock, sem_wait, sem_post. cbn [lock_].
  split.
  - destruct (Z.ltb_spec 0 v); [|lia]. eexists. split; [reflexivity|].
    cbn [lock_]. destruct (Z.ltb_spec (v - 1) SEM_VALUE_MAX); [|lia].
    cbn [snd]. f_equal. lia.
  - destruct (Z.ltb_spec v SEM_VALUE_MAX); [|lia]. cbn [snd].
    destruct (Z.ltb_spec 0 (v + 1)); [|lia]. eexists _, _.
    split; [reflexivity|]. cbn [lock_].
    destruct (Z.ltb_spec 0 (v + 1 - 1)); [|lia].
    split; [reflexivity|]. cbn [lock_]. lia.
Qed.

Lemma nm_mutex_unlock_not_capped_witness :
  (exists held : nm_mutex_t,
      nm_mutex_lock false {| lock_ := 1 |} = Some held /\
      nm_mutex_unlock held = {| lock_ := 1 |}) /\
  (exists m1 m2 : nm_mutex_t,
      nm_mutex_lock true (nm_mutex_unlock {| lock_ := 1 |}) = Some m1 /\
      nm_mutex_lock false m1 = Some m2 /\
      lock_ m2 = lock_ {| lock_ := 1 |} - 1).
Proof.
  apply (nm_mutex_unlock_not_capped {| lock_ := 1 |} false true false).
  split; [discriminate|reflexivity].
Defined.

(** X12. [nm_barrier_destroy] destroys the turnstile only when destroying
    the mutex has failed: when [sem_destroy] succeeds on the lock, the
    function returns 0 without calling [sem_destroy] on the turnstile,
    which is left as it was; and the result is non-zero only when both
    calls of [sem_destroy] fail. *)
Theorem nm_barrier_destroy_skips_turnstile
    (platform_sem_destroy : sem_t -> Z * sem_t) (barrier_ : nm_barrier_t) :
  (fst (platform_sem_destroy (lock_ (mtx_ barrier_))) = 0 ->
   fst (nm_barrier_destroy platform_sem_destroy barrier_) = 0 /\
   turnstile_ (snd (nm_barrier_destroy platform_sem_destroy barrier_))
   = turnstile_ barrier_) /\
  (fst (nm_barrier_destroy platform_sem_destroy barrier_) <> 0 ->
   fst (platform_sem_destroy (lock_ (mtx_ barrier_))) <> 0 /\
   fst (platform_sem_destroy (turnstile_ barrier_)) <> 0).
Proof.
  unfold nm_barrier_destroy, nm_mutex_destroy_with.
  destruct (platform_sem_destroy (lock_ (mtx_ barrier_))) as [r1 s1].
  cbn [fst snd set_mtx turnstile_].
  destruct (platform_sem_destroy (turnstile_ barrier_)) as [r2 s2].
  destruct (Z.eqb_spec r1 0) as [->|H1]; cbn [fst snd].
  - split; [now split|]. intros H. contradiction.
  - split; [intros H; contradiction|].
    destruct (Z.eqb_spec r2 0) as [->|H2]; cbn [fst snd]; intros H;
      [contradiction|now split].
Qed.

Lemma nm_barrier_destroy_skips_turnstile_witness :
  (fst (sem_destroy (lock_ (mtx_ (fresh_barrier 2)))) = 0 ->
   fst (nm_barrier_destroy sem_destroy (fresh_barrier 2)) = 0 /\
   turnstile_ (snd (nm_barrier_destroy sem_destroy (fresh_barrier 2)))
   = turnstile_ (fresh_barrier 2)) /\
  (fst (nm_barrier_destroy sem_destroy (fresh_barrier 2)) <> 0 ->
   fst (sem_destroy (lock_ (mtx_ (fresh_barrier 2)))) <> 0 /\
   fst (sem_destroy (turnstile_ (fresh_barrier 2))) <> 0).
Proof.
  exact (nm_barrier_destroy_skips_turnstile sem_destroy (fresh_barrier 2)).
Defined.

(** X18. [nm_mutex_lock] and [nm_barrier_wait] do not look at what
    [sem_wait] returns.  A thread whose blocked [sem_wait] is interrupted
    by a signal goes on as if the wait had succeeded, with the semaphore
    unchanged: at the held lock it enters the critical section, at the
    empty turnstile it returns from [nm_barrier_wait].  So with party
    size [n >= 2] a second caller can be inside the critical section
    together with the first, and a caller can return when it is the only
    one to have arrived. *)
Theorem nm_barrier_wait_ignores_interrupted_wait (n : Z) (b : nm_barrier_t) :
  2 <= n <= SEM_VALUE_MAX ->
  (lock_ (mtx_ b) = 0 ->
   nm_barrier_wait_step true b AtLock = Some (b, AtArrive)) /\
  (turnstile_ b = 0 ->
   nm_barrier_wait_step true b AtTurnstile = Some (b, Returned)) /\
  run_schedule (barrier_system n 2) [(0%nat, false); (1%nat, true)]
  = Some {| shared := {| max_threads_count_ := n;
                         waiting_threads_count_ := 0;
                         mtx_ := {| lock_ := 0 |};
                         turnstile_ := 0 |};
            threads := [AtArrive; AtArrive] |} /\
  run_schedule (barrier_system n 2)
               [(0%nat, false); (0%nat, false); (0%nat, false); (0%nat, true)]
  = Some {| shared := {| max_threads_count_ := n;
                         waiting_threads_count_ := 1;
                         mtx_ := {| lock_ := 1 |};
                         turnstile_ := 0 |};
            threads := [Returned; AtLock] |}.
Proof.
  intros Hn. split; [|split; [|split]].
  - intros H. destruct b as [mx w [l] ts]. cbn in H. subst l. reflexivity.
  - intros H. destruct b as [mx w [l] ts]. cbn in H. subst ts. reflexivity.
  - unfold barrier_system. rewrite fresh_barrier_eq. reflexivity.
  - unfold barrier_system. rewrite fresh_barrier_eq.
    cbn [run_schedule sys_step threads shared fst snd replicate lookup].
    cbn. change (wrap_uint (0 + 1)) with 1.
    destruct (Z.eqb_spec 1 n); [lia|]. reflexivity.
Qed.

Lemma nm_barrier_wait_ignores_interrupted_wait_witness :
  (lock_ (mtx_ {| max_threads_count_ := 2; waiting_threads_count_ := 1;
                  mtx_ := {| lock_ := 0 |}; turnstile_ := 0 |}) = 0 ->
   nm_barrier_wait_step true
     {| max_threads_count_ := 2; waiting_threads_count_ := 1;
        mtx_ := {| lock_ := 0 |}; turnstile_ := 0 |} AtLock
   = Some ({| max_threads_count_ := 2; waiting_threads_count_ := 1;
              mtx_ := {| lock_ := 0 |}; turnstile_ := 0 |}, AtArrive)) /\
  (turnstile_ {| max_threads_count_ := 2; waiting_threads_count_ := 1;
                 mtx_ := {| lock_ := 0 |}; turnstile_ := 0 |} = 0 ->
   nm_barrier_wait_step true
     {| max_threads_count_ := 2; waiting_threads_count_ := 1;
        mtx_ := {| lock_ := 0 |}; turnstile_ := 0 |} AtTurnstile
   = Some ({| max_threads_count_ := 2; waiting_threads_count_ := 1;
              mtx_ := {| lock_ := 0 |}; turnstile_ := 0 |}, Returned)) /\
  run_schedule (barrier_system 2 2) [(0%nat, false); (1%nat, true)]
  = Some {| shared := {| max_threads_count_ := 2;
                         waiting_threads_count_ := 0;
                         mtx_ := {| lock_ := 0 |};
                         turnstile_ := 0 |};
            threads := [AtArrive; AtArrive] |} /\
  run_schedule (barrier_system 2 2)
               [(0%nat, false); (0%nat, false); (0%nat, false); (0%nat, true)]
  = Some {| shared := {| max_threads_count_ := 2;
                         waiting_threads_count_ := 1;
                         mtx_ := {| lock_ := 1 |};
                         turnstile_ := 0 |};
            threads := [Returned; AtLock] |}.
Proof.
  apply (nm_barrier_wait_ignores_interrupted_wait 2
           {| max_threads_count_ := 2; waiting_threads_count_ := 1;
              mtx_ := {| lock_ := 0 |}; turnstile_ := 0 |}).
  split; discriminate.
Defined.

(* ================================================================== *)
(** * The semaphore functions for Windows: results *)

Lemma sem_value_max_pos : 0 < SEM_VALUE_MAX.
Proof. reflexivity. Qed.

Lemma win32_getvalue_in_bounds (errno value : Z) (pv : Win32.arch_sem_t) :
  Win32.in_bounds pv ->
  Win32.sem_getvalue errno (Some (Some pv)) value
  = Some (0, errno, Some (Some pv), Win32.count (Win32.handle pv)).
Proof.
  destruct pv as [[c m]]. unfold Win32.in_bounds. cbn. intros H.
  unfold Win32.sem_getvalue, Win32.WaitForSingleObject. cbn.
  destruct (Z.ltb_spec 0 c) as [Hpos|Hzero].
  - cbn. unfold Win32.ReleaseSemaphore. cbn.
    destruct (Z.leb_spec (c - 1 + 1) m); [|lia]. cbn.
    replace (c - 1 + 1) with c by lia. reflexivity.
  - cbn. replace c with 0 by lia. reflexivity.
Qed.

(** X13. [sem_getvalue] on an initialised semaphore never parks the
    caller, returns 0, stores the semaphore's count in [*value_ptr_] and
    leaves the semaphore and [errno] as they were (the count it takes
    for a moment is given back). *)
Theorem win32_sem_getvalue_reads_count (errno value : Z)
    (pv : Win32.arch_sem_t) :
  Win32.in_bounds pv ->
  Win32.sem_getvalue errno (Some (Some pv)) value
  = Some (0, errno, Some (Some pv), Win32.count (Win32.handle pv)).
Proof. apply win32_getvalue_in_bounds. Qed.

Lemma win32_sem_getvalue_reads_count_witness :
  Win32.sem_getvalue 0
    (Some (Some {| Win32.handle := {| Win32.count := 3;
                                      Win32.maximum := SEM_VALUE_MAX |} |}))
    9
  = Some (0, 0,
          Some (Some {| Win32.handle := {| Win32.count := 3;
                                           Win32.maximum := SEM_VALUE_MAX |} |}),
          3).
Proof.
  apply (win32_sem_getvalue_reads_count 0 9
           {| Win32.handle := {| Win32.count := 3;
                                 Win32.maximum := SEM_VALUE_MAX |} |}).
  split; discriminate.
Defined.

(** X14. On an initialised semaphore, [sem_post] below the maximum
    returns 0 and raises the count by one, and [sem_wait] after it
    returns 0 and restores the semaphore; [sem_post] at the maximum
    returns -1 with [errno] set to [EINVAL] and changes nothing;
    [sem_wait] at count 0 parks the caller. *)
Theorem win32_sem_post_wait (errno : Z) (pv : Win32.arch_sem_t) :
  Win32.in_bounds pv ->
  (Win32.count (Win32.handle pv) < Win32.maximum (Win32.handle pv) ->
   exists pv' : Win32.arch_sem_t,
     Win32.sem_post errno (Some (Some pv)) = (0, errno, Some (Some pv')) /\
     Win32.count (Win32.handle pv') = Win32.count (Win32.handle pv) + 1 /\
     Win32.sem_wait errno (Some (Some pv'))
     = Some (0, errno, Some (Some pv))) /\
  (Win32.count (Win32.handle pv) = Win32.maximum (Win32.handle pv) ->
   Win32.sem_post errno (Some (Some pv))
   = (-1, Win32.EINVAL, Some (Some pv))) /\
  (Win32.count (Win32.handle pv) = 0 ->
   Win32.sem_wait errno (Some (Some pv)) = None).
Proof.
  destruct pv as [[c m]]. unfold Win32.in_bounds. cbn. intros H.
  unfold Win32.sem_post, Win32.sem_wait, Win32.ReleaseSemaphore,
    Win32.WaitForSingleObject. cbn.
  split; [|split].
  - intros Hlt. destruct (Z.leb_spec (c + 1) m); [|lia]. cbn.
    eexists. split; [reflexivity|]. cbn. split; [reflexivity|].
    destruct (Z.ltb_spec 0 (c + 1)); [|lia]. cbn.
    replace (c + 1 - 1) with c by lia. reflexivity.
  - intros ->. destruct (Z.leb_spec (m + 1) m); [lia|]. reflexivity.
  - intros ->. reflexivity.
Qed.

Lemma win32_sem_post_wait_witness :
  (0 < 1 ->
   exists pv' : Win32.arch_sem_t,
     Win32.sem_post 0
       (Some (Some {| Win32.handle := {| Win32.count := 0;
                                         Win32.maximum := 1 |} |}))
     = (0, 0, Some (Some pv')) /\
     Win32.count (Win32.handle pv') = 0 + 1 /\
     Win32.sem_wait 0 (Some (Some pv'))
     = Some (0, 0,
             Some (Some {| Win32.handle := {| Win32.count := 0;
                                              Win32.maximum := 1 |} |}))) /\
  (0 = 1 ->
   Win32.sem_post 0
     (Some (Some {| Win32.handle := {| Win32.count := 0;
                                       Win32.maximum := 1 |} |}))
   = (-1, Win32.EINVAL,
      Some (Some {| Win32.handle := {| Win32.count := 0;
                                       Win32.maximum := 1 |} |}))) /\
  (0 = 0 ->
   Win32.sem_wait 0
     (Some (Some {| Win32.handle := {| Win32.count := 0;
                                       Win32.maximum := 1 |} |}))
   = None).
Proof.
  apply (win32_sem_post_wait 0
           {| Win32.handle := {| Win32.count := 0; Win32.maximum := 1 |} |}).
  split; discriminate.
Defined.

(** X15. A semaphore's life: [sem_init] with a value up to
    [SEM_VALUE_MAX], when memory and a kernel object are to be had,
    returns 0 and [sem_getvalue] then reads that value; [sem_destroy]
    returns 0 and sets [*sem_] to [NULL]; after that [sem_wait],
    [sem_post], [sem_getvalue] and a second [sem_destroy] all return -1
    with [errno] set to [EINVAL], park nobody and change nothing. *)
Theorem win32_sem_lifecycle (errno value_ pshared_ cell : Z)
    (old : Win32.sem_t) :
  0 <= value_ <= SEM_VALUE_MAX ->
  exists pv : Win32.arch_sem_t,
    Win32.sem_init true true errno (Some old) pshared_ value_
    = (0, errno, Some (Some pv)) /\
    Win32.sem_getvalue errno (Some (Some pv)) cell
    = Some (0, errno, Some (Some pv), value_) /\
    Win32.sem_destroy errno (Some (Some pv)) = (0, errno, Some None) /\
    Win32.sem_wait errno (Some None)
    = Some (-1, Win32.EINVAL, Some None) /\
    Win32.sem_post errno (Some None) = (-1, Win32.EINVAL, Some None) /\
    Win32.sem_getvalue errno (Some None) cell
    = Some (-1, Win32.EINVAL, Some None, cell) /\
    Win32.sem_destroy errno (Some None) = (-1, Win32.EINVAL, Some None).
Proof.
  intros H. pose proof sem_value_max_pos as Hmax.
  exists {| Win32.handle := {| Win32.count := value_;
                               Win32.maximum := SEM_VALUE_MAX |} |}.
  split.
  - unfold Win32.sem_init, Win32.CreateSemaphore.
    destruct (Z.ltb_spec SEM_VALUE_MAX value_); [lia|]. cbn [negb andb].
    destruct (Z.leb_spec 0 value_); [|lia].
    destruct (Z.leb_spec value_ SEM_VALUE_MAX); [|lia].
    reflexivity.
  - split.
    + rewrite win32_getvalue_in_bounds; [reflexivity|].
      unfold Win32.in_bounds. cbn. lia.
    + repeat split.
Qed.

Lemma win32_sem_lifecycle_witness :
  exists pv : Win32.arch_sem_t,
    Win32.sem_init true true 0 (Some None) 0 2
    = (0, 0, Some (Some pv)) /\
    Win32.sem_getvalue 0 (Some (Some pv)) 9
    = Some (0, 0, Some (Some pv), 2) /\
    Win32.sem_destroy 0 (Some (Some pv)) = (0, 0, Some None) /\
    Win32.sem_wait 0 (Some None) = Some (-1, Win32.EINVAL, Some None) /\
    Win32.sem_post 0 (Some None) = (-1, Win32.EINVAL, Some None) /\
    Win32.sem_getvalue 0 (Some None) 9
    = Some (-1, Win32.EINVAL, Some None, 9) /\
    Win32.sem_destroy 0 (Some None) = (-1, Win32.EINVAL, Some None).
Proof.
  apply (win32_sem_lifecycle 0 2 0 9 None).
  split; discriminate.
Defined.

(** X16. [sem_init] fails in three ways, each time returning -1 and
    leaving [*sem_] as it was: with [errno] set to [EINVAL] for a [NULL]
    pointer or a value above [SEM_VALUE_MAX], to [ENOMEM] when [calloc]
    fails, and to [ENOSPC] when no kernel object is to be had; in every
    other case it returns 0 and leaves [errno] alone. *)
Theorem win32_sem_init_outcomes (calloc_ok resources_ok : bool)
    (errno pshared_ value_ : Z) (sem_ : option Win32.sem_t) :
  0 <= value_ ->
  (sem_ = None \/ SEM_VALUE_MAX < value_ ->
   Win32.sem_init calloc_ok resources_ok errno sem_ pshared_ value_
   = (-1, Win32.EINVAL, sem_)) /\
  (sem_ <> None -> value_ <= SEM_VALUE_MAX -> calloc_ok = false ->
   Win32.sem_init calloc_ok resources_ok errno sem_ pshared_ value_
   = (-1, Win32.ENOMEM, sem_)) /\
  (sem_ <> None -> value_ <= SEM_VALUE_MAX -> calloc_ok = true ->
   resources_ok = false ->
   Win32.sem_init calloc_ok resources_ok errno sem_ pshared_ value_
   = (-1, Win32.ENOSPC, sem_)) /\
  (sem_ <> None -> value_ <= SEM_VALUE_MAX -> calloc_ok = true ->
   resources_ok = true ->
   Win32.sem_init calloc_ok resources_ok errno sem_ pshared_ value_
   = (0, errno,
      Some (Some {| Win32.handle :=
                      {| Win32.count := value_;
                         Win32.maximum := SEM_VALUE_MAX |} |}))).
Proof.
  intros Hv. pose proof sem_value_max_pos as Hmax.
  unfold Win32.sem_init, Win32.CreateSemaphore.
  split; [|split; [|split]].
  - intros [->|Hbig]; [reflexivity|]. destruct sem_ as [old|]; [|reflexivity].
    destruct (Z.ltb_spec SEM_VALUE_MAX value_); [reflexivity|lia].
  - intros Hs Hle ->. destruct sem_ as [old|]; [|contradiction].
    destruct (Z.ltb_spec SEM_VALUE_MAX value_); [lia|reflexivity].
  - intros Hs Hle -> ->. destruct sem_ as [old|]; [|contradiction].
    destruct (Z.ltb_spec SEM_VALUE_MAX value_); [lia|reflexivity].
  - intros Hs Hle -> ->. destruct sem_ as [old|]; [|contradiction].
    destruct (Z.ltb_spec SEM_VALUE_MAX value_); [lia|]. cbn [negb andb].
    destruct (Z.leb_spec 0 value_); [|lia].
    destruct (Z.leb_spec value_ SEM_VALUE_MAX); [|lia].
    reflexivity.
Qed.

Lemma win32_sem_init_outcomes_witness :
  (Some (@None Win32.arch_sem_t) = None \/ SEM_VALUE_MAX < 5 ->
   Win32.sem_init true false 0 (Some None) 0 5
   = (-1, Win32.EINVAL, Some None)) /\
  (Some (@None Win32.arch_sem_t) <> None -> 5 <= SEM_VALUE_MAX -> true = false ->
   Win32.sem_init true false 0 (Some None) 0 5
   = (-1, Win32.ENOMEM, Some None)) /\
  (Some (@None Win32.arch_sem_t) <> None -> 5 <= SEM_VALUE_MAX -> true = true ->
   false = false ->
   Win32.sem_init true false 0 (Some None) 0 5
   = (-1, Win32.ENOSPC, Some None)) /\
  (Some (@None Win32.arch_sem_t) <> None -> 5 <= SEM_VALUE_MAX -> true = true ->
   false = true ->
   Win32.sem_init true false 0 (Some None) 0 5
   = (0, 0,
      Some (Some {| Win32.handle :=
                      {| Win32.count := 5;
                         Win32.maximum := SEM_VALUE_MAX |} |}))).
Proof.
  apply (win32_sem_init_outcomes true false 0 0 5 (Some None)).
  discriminate.
Defined.

(* ================================================================== *)
(** * The queue: what the array holds *)

Lemma fifo_call_nonnull {C : Type} (capacity : Z) (l : list ptr) (c : call C) :
  Forall (fun x => x <> NULL) l ->
  Forall (fun x => x <> NULL) (snd (fifo_call capacity l c)).
Proof.
  intros H. destruct c as [item_|[old|]| | |[cb|] ctx]; cbn [fifo_call];
    trivial.
  - unfold fifo_enqueue. destruct (Z.eqb_spec item_ NULL); [assumption|].
    destruct (_ =? _); [assumption|]. cbn [snd].
    apply Forall_app. split; [assumption|]. now constructor.
  - destruct l as [|x l]; cbn; [constructor|]. now inversion H.
  - now destruct (visit cb l ctx) as [[s m] c2].
Qed.

Lemma fifo_run_nonnull {C : Type} (capacity : Z) (cs : list (call C)) :
  forall l : list ptr,
  Forall (fun x => x <> NULL) l ->
  Forall (fun x => x <> NULL) (snd (fifo_run capacity l cs)).
Proof.
  induction cs as [|c cs IH]; intros l H; cbn [fifo_run]; [assumption|].
  pose proof (fifo_call_nonnull capacity l c H) as H1.
  destruct (fifo_call capacity l c) as [a l1]. cbn [snd] in H1.
  specialize (IH l1 H1). now destruct (fifo_run capacity l1 cs).
Qed.

Lemma slot_in_contents (q : nm_queue) (k : Z) :
  0 <= k < items_count_ q -> In (slot q k) (contents q).
Proof.
  intros Hk. unfold contents. apply in_map_iff.
  exists (Z.to_nat k). split; [f_equal; lia|]. apply in_seq. lia.
Qed.

(** X17. From [nm_queue_create], after any sequence of calls, the array
    holds a non-[NULL] handle in every slot of the buffered range
    (counted from [head_], wrapping) and [NULL] in every other slot: no
    [NULL] is ever buffered and no handle of an item that was handed out
    stays in the array. *)
Theorem nm_queue_slot_null_iff_free (C : Type) (n : Z)
    (malloc_ok calloc_ok : bool) (q : nm_queue) (cs : list (call C)) :
  0 < n <= MAX_SIZE_T ->
  nm_queue_create malloc_ok calloc_ok n = Some q ->
  exists (rs : list (answer C)) (q' : nm_queue),
    run_calls (Some q) cs = Ret (rs, Some q') /\
    forall k : Z,
      0 <= k < capacity_ q' ->
      (slot q' k = NULL <-> items_count_ q' <= k).
Proof.
  intros Hn Hc.
  assert (Hn' : 0 <= n <= MAX_SIZE_T) by lia.
  destruct (create_wf _ _ _ _ Hn' Hc) as (W & K & _).
  destruct (run_calls_wf cs q W) as (rs & q' & E & W' & _ & F & _).
  destruct (run_calls_refines cs q W) as (rs2 & q2 & E2 & _ & _ & R & _).
  rewrite E in E2. injection E2 as <- <-.
  specialize (F (free_slots_null_create _ _ _ _ Hc)).
  pose proof (fifo_run_nonnull (capacity_ q) cs (contents q)) as Hnn.
  rewrite (contents_create _ _ _ _ Hc) in Hnn, R.
  specialize (Hnn ltac:(constructor)). rewrite R in Hnn.
  exists rs, q'. split; [assumption|]. intros k Hk. split.
  - intros Hnull.
    destruct (Z.le_gt_cases (items_count_ q') k) as [|Hlt]; [assumption|].
    exfalso. rewrite Forall_forall in Hnn.
    apply (Hnn (slot q' k)); [|assumption].
    apply list_elem_of_In. apply slot_in_contents. lia.
  - intros Hge. apply F. lia.
Qed.

Lemma nm_queue_slot_null_iff_free_witness :
  exists (rs : list (answer unit)) (q' : nm_queue),
    run_calls (Some {| items_ := [NULL; NULL]; capacity_ := 2; head_ := 0;
                       tail_ := 0; items_count_ := 0 |})
              sample_calls
    = Ret (rs, Some q') /\
    forall k : Z,
      0 <= k < capacity_ q' ->
      (slot q' k = NULL <-> items_count_ q' <= k).
Proof.
  apply (nm_queue_slot_null_iff_free unit 2 true true).
  - exact sample_capacity_in_range.
  - reflexivity.
Defined.
